(** * Speed-gradient synthesis of [src/rendering/svg.ts]

    A shallow embedding of [toSvgBackgroundGradient] (the interval expander,
    the interval merger, the two redundancy filters, boundary synthesis and
    the offset computation) and of [toSvgLines] (the geometry mapper), with
    the properties the specification states about them.

    Numbers.  The source computes with JavaScript numbers.  They are modelled
    without rounding error: a finite number is an exact rational.  Timestamps,
    positions, the total duration and the pixel sizes are finite rationals
    ([Q]); every operation the source applies to them (subtraction, [lerp],
    halving, adding or subtracting 100) keeps them finite.  Speeds and the
    results of the two divisions whose divisor can vanish (the weighted merge
    and [s.at / durationMs]) are values of [num], which adds the three
    non-finite values of IEEE arithmetic.  The sign of a zero is not
    represented; a zero divisor is the positive zero, which is what the sums
    and differences of the source produce. *)

From Stdlib Require Import List ZArith QArith Qround Qabs Lia Lqa Bool.
From Stdlib Require Import Sorted Permutation.
From Stdlib Require String Ascii.
From Equations Require Import Equations.
Import ListNotations.

Set Implicit Arguments.

Open Scope Q_scope.

(** ** JavaScript numbers *)

Definition Qltb (x y : Q) : bool := negb (Qle_bool y x).

Inductive num : Type :=
| Fin (q : Q)
| PInf
| NInf
| NaN.

(** The three signs a finite number can have. *)
Definition Qsign (q : Q) : comparison := (Qnum q ?= 0)%Z.

Definition num_neg (x : num) : num :=
  match x with
  | Fin a => Fin (- a)
  | PInf => NInf
  | NInf => PInf
  | NaN => NaN
  end.

Definition num_add (x y : num) : num :=
  match x, y with
  | NaN, _ | _, NaN => NaN
  | Fin a, Fin b => Fin (a + b)
  | PInf, NInf | NInf, PInf => NaN
  | PInf, _ | _, PInf => PInf
  | NInf, _ | _, NInf => NInf
  end.

Definition num_sub (x y : num) : num := num_add x (num_neg y).

(** An infinity, positive or negative, times a finite number [q]. *)
Definition inf_times (positive : bool) (q : Q) : num :=
  match Qsign q with
  | Eq => NaN
  | Gt => if positive then PInf else NInf
  | Lt => if positive then NInf else PInf
  end.

Definition num_mul (x y : num) : num :=
  match x, y with
  | NaN, _ | _, NaN => NaN
  | Fin a, Fin b => Fin (a * b)
  | PInf, Fin b => inf_times true b
  | NInf, Fin b => inf_times false b
  | Fin a, PInf => inf_times true a
  | Fin a, NInf => inf_times false a
  | PInf, PInf | NInf, NInf => PInf
  | PInf, NInf | NInf, PInf => NInf
  end.

Definition num_div (x y : num) : num :=
  match x, y with
  | NaN, _ | _, NaN => NaN
  | Fin a, Fin b =>
      match Qsign b with
      | Eq => match Qsign a with Eq => NaN | Gt => PInf | Lt => NInf end
      | _ => Fin (a / b)
      end
  | Fin _, (PInf | NInf) => Fin 0
  | (PInf | NInf), (PInf | NInf) => NaN
  | PInf, Fin b => match Qsign b with Lt => NInf | _ => PInf end
  | NInf, Fin b => match Qsign b with Lt => PInf | _ => NInf end
  end.

(** [x === y] on numbers: [NaN] equals nothing, itself included. *)
Definition num_eqb (x y : num) : bool :=
  match x, y with
  | Fin a, Fin b => Qeq_bool a b
  | PInf, PInf | NInf, NInf => true
  | _, _ => false
  end.

(** [x < y] and [x <= y]: false as soon as one side is [NaN]. *)
Definition num_ltb (x y : num) : bool :=
  match x, y with
  | NaN, _ | _, NaN => false
  | Fin a, Fin b => Qltb a b
  | NInf, (Fin _ | PInf) => true
  | Fin _, PInf => true
  | _, _ => false
  end.

Definition num_leb (x y : num) : bool :=
  match x, y with
  | NaN, _ | _, NaN => false
  | Fin a, Fin b => Qle_bool a b
  | NInf, _ => true
  | _, PInf => true
  | _, _ => false
  end.

(** [x >= y] *)
Definition num_geb (x y : num) : bool := num_leb y x.

(** [Math.min] and [Math.max] of two arguments. *)
Definition num_min (x y : num) : num :=
  match x, y with
  | NaN, _ | _, NaN => NaN
  | _, _ => if num_leb x y then x else y
  end.

Definition num_max (x y : num) : num :=
  match x, y with
  | NaN, _ | _, NaN => NaN
  | _, _ => if num_leb x y then y else x
  end.

(** [x.toFixed(2)] picks the integer [n] with [n / 100] nearest to [x], the
    larger one on a tie, after setting a negative sign aside; the unary [+]
    reads the digits back. *)
Definition toFixed2 (q : Q) : Q :=
  Qred (inject_Z (Qfloor (q * 100 + (1 # 2))) / 100).

Definition roundQ (q : Q) : Q :=
  if Qltb q 0 then Qred (- toFixed2 (- q)) else toFixed2 q.

(** [const round = (x: number) => +x.toFixed(2)] *)
Definition round (x : num) : num :=
  match x with
  | Fin q => Fin (roundQ q)
  | other => other
  end.

(** [~~x]: truncation towards zero, then reduction to a signed 32-bit
    integer (ToInt32). *)
Definition toInt32 (q : Q) : Z :=
  let t := Z.quot (Qnum q) (Zpos (Qden q)) in
  ((t + 2 ^ 31) mod 2 ^ 32 - 2 ^ 31)%Z.

(** ** Data model *)

(** [FunAction]: a keyframe.  [at] is a reserved word here, hence [at_]. *)
Record FunAction : Type := mkFunAction { at_ : Q; pos : Q }.

(** A line of [actionsToLines]: the tuple [[a, b, speed]]. *)
Definition Line : Type := (FunAction * FunAction * num)%type.

Definition lineStart (e : Line) : FunAction := fst (fst e).
Definition lineEnd (e : Line) : FunAction := snd (fst e).
Definition lineSpeed (e : Line) : num := snd e.

(** An entry of [stops]: [{ at, speed }]. *)
Record Stop : Type := mkStop { stopAt : Q; stopSpeed : num }.

(** One [<stop>] element of the returned markup.  [stop-color] is
    [speedToHexCached(s.speed)], an external function: the record keeps the
    speed handed to it.  [stop-opacity] is absent for speeds of 100 and
    more. *)
Record GradientStop : Type := mkGradientStop {
  offsetFraction : num;
  speed : num;
  opacity : option num
}.

(** ** Interval expander *)

(** Modelled from the spec: [lerp] of [utils/misc], not part of the sources
    at hand; the linear interpolation between [a] and [b] at fraction [t]. *)
Definition lerp (a b t : Q) : Q := a + (b - a) * t.

(** The [i]-th of [N] sub-lines of [(a, b, s)], as built in the callback of
    [Array.from]. *)
Definition subLine (a b : FunAction) (s : num) (N : Z) (i : nat) : Line :=
  let t0 := inject_Z (Z.of_nat i) / inject_Z N in
  let t1 := inject_Z (Z.of_nat i + 1) / inject_Z N in
  (mkFunAction (lerp (at_ a) (at_ b) t0) (lerp (pos a) (pos b) t0),
   mkFunAction (lerp (at_ a) (at_ b) t1) (lerp (pos a) (pos b) t1),
   s).

(** The callback of [flatMap].  [Array.from({ length: N }, f)] has
    [max N 0] entries. *)
Definition expandLine (e : Line) : list Line :=
  let '(a, b, s) := e in
  let len := at_ b - at_ a in
  if Qle_bool len 0 then []
  else if Qltb len 2000 then [e]
  else
    let N := toInt32 ((len - 500) / 1000) in
    map (subLine a b s N) (seq 0 (Z.to_nat N)).

Definition expandLines (lines : list Line) : list Line :=
  flat_map expandLine lines.

(** ** Interval merger *)

(** [d.at - a.at < 1000] for [lines[i] = [a, b, ab]] and
    [lines[i + 1] = [c, d, cd]]. *)
Definition mergeable (x y : Line) : bool :=
  let '(a, b, ab) := x in
  let '(c, d, cd) := y in
  Qltb (at_ d - at_ a) 1000.

(** The line [[a, d, speed]] that replaces the two. *)
Definition mergedLine (x y : Line) : Line :=
  let '(a, b, ab) := x in
  let '(c, d, cd) := y in
  let speed :=
    num_div
      (num_add (num_mul ab (Fin (at_ b - at_ a)))
               (num_mul cd (Fin (at_ d - at_ c))))
      (Fin ((at_ b - at_ a) + (at_ d - at_ c))) in
  (a, d, speed).

(** [l.splice(i, n, ...ins)], for its effect on [l]. *)
Definition splice (A : Type) (i n : nat) (ins l : list A) : list A :=
  firstn i l ++ ins ++ skipn (i + n) l.

(** What an index read gives where the loop guard rules it out. *)
Definition noLine : Line := (mkFunAction 0 0, mkFunAction 0 0, NaN).

Definition inspect (A : Type) (a : A) : {b : A | a = b} := exist _ a eq_refl.

(** The [for] loop over [lines], from index [i] on.  A merge leaves the index
    where it is ([i--] undone by [i++]); otherwise the index advances. *)
Equations? mergeLoop (i : nat) (lines : list Line) : list Line
  by wf (length lines - i)%nat lt :=
  mergeLoop i lines with inspect (S i <? length lines)%nat := {
    | exist _ false _ := lines
    | exist _ true Hi
        with inspect (mergeable (nth i lines noLine) (nth (S i) lines noLine)) := {
        | exist _ true _ :=
            mergeLoop i
              (splice i 2
                 [mergedLine (nth i lines noLine) (nth (S i) lines noLine)]
                 lines)
        | exist _ false _ := mergeLoop (S i) lines } }.
Proof.
  - apply Nat.ltb_lt in Hi. unfold splice.
    rewrite !length_app, length_firstn, length_skipn. simpl. lia.
  - apply Nat.ltb_lt in Hi. lia.
Qed.

Definition mergeLines (lines : list Line) : list Line := mergeLoop 0 lines.

(** ** Redundancy filter *)

(** [a.filter((e, i, a) => ...)]: the callback sees the entry, its index and
    the array being filtered, which [filter] does not change. *)
Fixpoint filterFrom (A : Type) (f : A -> nat -> list A -> bool)
    (a : list A) (i : nat) (rest : list A) : list A :=
  match rest with
  | [] => []
  | e :: rest' =>
      if f e i a then e :: filterFrom f a (S i) rest'
      else filterFrom f a (S i) rest'
  end.

Definition arrayFilter (A : Type) (f : A -> nat -> list A -> bool)
    (a : list A) : list A :=
  filterFrom f a 0 a.

(** The callback of both filters; [sp] reads the speed of an entry
    ([e[2]] for a line, [e.speed] for a stop).  [a[i - 1]] is undefined at
    index 0 and [a[i + 1]] is undefined at the last index. *)
Definition keepEntry (A : Type) (sp : A -> num)
    (e : A) (i : nat) (a : list A) : bool :=
  let p := match i with O => None | S j => nth_error a j end in
  let n := nth_error a (S i) in
  match p, n with
  | Some p, Some n =>
      if num_eqb (sp p) (sp e) && num_eqb (sp e) (sp n) then false else true
  | _, _ => true
  end.

Definition filterLines (lines : list Line) : list Line :=
  arrayFilter (keepEntry lineSpeed) lines.

Definition filterStops (stops : list Stop) : list Stop :=
  arrayFilter (keepEntry stopSpeed) stops.

(** ** Stop derivation and boundary synthesis *)

(** The callback of [map]: a stop at the temporal midpoint. *)
Definition midStop (e : Line) : Stop :=
  let '(a, b, speed) := e in
  mkStop ((at_ a + at_ b) / 2) speed.

(** The block guarded by [if (lines.length)]: [unshift] twice, [push]
    twice. *)
Definition addBoundaryStops (lines : list Line) (durationMs : Q)
    (stops : list Stop) : list Stop :=
  match lines with
  | [] => stops
  | first :: _ =>
      let last := List.last lines first in
      let stops := mkStop (at_ (lineStart first)) (lineSpeed first) :: stops in
      let stops :=
        if Qltb 100 (at_ (lineStart first))
        then mkStop (at_ (lineStart first) - 100) (Fin 0) :: stops
        else stops in
      let stops := stops ++ [mkStop (at_ (lineEnd last)) (lineSpeed last)] in
      if Qltb (at_ (lineEnd last)) (durationMs - 100)
      then stops ++ [mkStop (at_ (lineEnd last) + 100) (Fin 0)]
      else stops
  end.

(** The value of [stops] when the markup is built.  [segs] is the array
    [actionsToLines(actionsToZigzag(script.actions))], computed by code that
    is not part of the sources at hand. *)
Definition gradientStops (segs : list Line) (durationMs : Q) : list Stop :=
  let lines := mergeLines (expandLines segs) in
  let stops := map midStop (filterLines lines) in
  let stops := addBoundaryStops lines durationMs stops in
  filterStops stops.

(** [Math.max(0, Math.min(1, s.at / durationMs))], rounded. *)
Definition stopOffset (durationMs : Q) (s : Stop) : num :=
  round (num_max (Fin 0)
           (num_min (Fin 1) (num_div (Fin (stopAt s)) (Fin durationMs)))).

(** The [<stop>] element written for [s]. *)
Definition stopElement (durationMs : Q) (s : Stop) : GradientStop :=
  mkGradientStop
    (stopOffset durationMs s)
    (stopSpeed s)
    (if num_geb (stopSpeed s) (Fin 100) then None
     else Some (round (num_div (stopSpeed s) (Fin 100)))).

(** The [<stop>] elements of the returned [<linearGradient>], in order. *)
Definition toSvgBackgroundGradient (segs : list Line) (durationMs : Q)
  : list GradientStop :=
  map (stopElement durationMs) (gradientStops segs durationMs).

(** How a call ends.  The body of [toSvgBackgroundGradient] has no [throw]
    and calls nothing that validates [durationMs]: every call returns. *)
Inductive completion (A : Type) : Type :=
| Returned (v : A)
| Thrown.
Arguments Thrown {A}.

Definition toSvgBackgroundGradient_call (segs : list Line) (durationMs : Q)
  : completion (list GradientStop) :=
  Returned (toSvgBackgroundGradient segs durationMs).

(** ** Geometry mapper *)

(** One [<path>] element: the four rounded coordinates of
    [M x1 y1 L x2 y2] and the speed handed to [speedToHexCached] for the
    stroke colour. *)
Record StrokeCommand : Type := mkStrokeCommand {
  fromX : num; fromY : num; toX : num; toY : num;
  strokeSpeed : num
}.

Section GeometryMapper.

Variables (durationMs lineWidth width height : Q).

(** [at] and [pos] of [lineToStroke]. *)
Definition strokeX (a : FunAction) : num :=
  round (num_add
           (num_mul (num_div (Fin (at_ a)) (Fin durationMs))
                    (Fin (width - 2 * lineWidth)))
           (Fin lineWidth)).

Definition strokeY (a : FunAction) : num :=
  round (Fin ((100 - pos a) * (height - 2 * lineWidth) / 100 + lineWidth)).

Definition lineToStroke (e : Line) : StrokeCommand :=
  let '(a, b, speed) := e in
  mkStrokeCommand (strokeX a) (strokeY a) (strokeX b) (strokeY b) speed.

(** The comparator [(a, b) => a[2] - b[2]]. *)
Definition compareSpeed (a b : Line) : num :=
  num_sub (lineSpeed a) (lineSpeed b).

(** [lines.sort(compareSpeed)].  The sort of the language is stable; [b]
    goes before [a] only when the comparator is positive on [(a, b)] (a
    [NaN] counts as zero).  Written as an insertion from the right end. *)
Fixpoint insertLine (x : Line) (sorted : list Line) : list Line :=
  match sorted with
  | [] => [x]
  | y :: rest =>
      if num_ltb (Fin 0) (compareSpeed x y) then y :: insertLine x rest
      else x :: sorted
  end.

Definition sortLines (lines : list Line) : list Line :=
  fold_right insertLine [] lines.

(** The [<path>] elements returned.  [lines] is the array after
    [mergeLinesSpeed(lines, mergeLimit)]; [actionsToLines] and
    [mergeLinesSpeed] are not part of the sources at hand. *)
Definition toSvgLines (lines : list Line) : list StrokeCommand :=
  map lineToStroke (sortLines lines).

End GeometryMapper.

(** ** The redundancy filter, step by step *)

Section FilterModel.

Variable A : Type.
Variable sp : A -> num.

(** The test of the callback on two neighbouring entries. *)
Definition sameSpeed (x y : A) : bool := num_eqb (sp x) (sp y).

(** The decision of the callback, from the two neighbours alone. *)
Definition keepBetween (p : option A) (e : A) (n : option A) : bool :=
  match p, n with
  | Some p, Some n => if sameSpeed p e && sameSpeed e n then false else true
  | _, _ => true
  end.

(** The filter as a recursion over the array, carrying the entry that
    precedes in the array being filtered (kept or not). *)
Fixpoint dedup (prev : option A) (l : list A) : list A :=
  match l with
  | [] => []
  | e :: r =>
      if keepBetween prev e (hd_error r) then e :: dedup (Some e) r
      else dedup (Some e) r
  end.

(** The last entry, if there is one. *)
Definition lastOpt (l : list A) : option A :=
  match l with
  | [] => None
  | x :: r => Some (last r x)
  end.

(** Three entries in a row, each with the speed of the next. *)
Fixpoint flatTriple (l : list A) : bool :=
  match l with
  | x :: r =>
      match r with
      | y :: z :: _ => (sameSpeed x y && sameSpeed y z) || flatTriple r
      | _ => false
      end
  | [] => false
  end.

(** The maximal runs of neighbouring entries of equal speed, in order. *)
Fixpoint runs (l : list A) : list (list A) :=
  match l with
  | [] => []
  | x :: r =>
      match runs r with
      | (y :: g) :: gs =>
          if sameSpeed x y then (x :: y :: g) :: gs
          else [x] :: (y :: g) :: gs
      | _ => [[x]]
      end
  end.

(** The first and the last entry of a run; the entry itself for a run of
    one. *)
Definition ends (g : list A) : list A :=
  match g with
  | [] => []
  | [x] => [x]
  | x :: r => [x; last r x]
  end.

(** Within a run each entry has the speed of the next. *)
Fixpoint flatRun (g : list A) : bool :=
  match g with
  | x :: r =>
      match r with
      | y :: _ => sameSpeed x y && flatRun r
      | [] => true
      end
  | [] => false
  end.

(** A run ends where the next entry has another speed. *)
Fixpoint separated (gs : list (list A)) : bool :=
  match gs with
  | g :: rest =>
      match g, rest with
      | x :: r, (y :: _) :: _ => negb (sameSpeed (last r x) y) && separated rest
      | _, _ => true
      end
  | [] => true
  end.

(** [e] has the speed of the entry before it, if there is one. *)
Definition continues (prev : option A) (e : A) : bool :=
  match prev with
  | Some p => sameSpeed p e
  | None => false
  end.

(** The preceding entry as a list of at most one entry. *)
Definition optList (o : option A) : list A :=
  match o with Some p => [p] | None => [] end.

End FilterModel.

Arguments ends {A} g.
Arguments lastOpt {A} l.
Arguments optList {A} o.

(** ** The merger as a left-to-right scan *)

(** [cur] is the line under the index, [rest] the lines to its right: a
    merge keeps the merged line under the index, otherwise [cur] is final
    and the index moves to the next line. *)
Fixpoint mergeScan (cur : Line) (rest : list Line) : list Line :=
  match rest with
  | [] => [cur]
  | next :: rest' =>
      if mergeable cur next then mergeScan (mergedLine cur next) rest'
      else cur :: mergeScan next rest'
  end.

(** Some line and its right neighbour could still be merged. *)
Fixpoint shortPair (l : list Line) : bool :=
  match l with
  | x :: r =>
      match r with
      | y :: _ => mergeable x y || shortPair r
      | [] => false
      end
  | [] => false
  end.

(** Two lines with the same times, positions and speed. *)
Definition lineEquiv (e e' : Line) : Prop :=
  at_ (lineStart e) == at_ (lineStart e')
  /\ pos (lineStart e) == pos (lineStart e')
  /\ at_ (lineEnd e) == at_ (lineEnd e')
  /\ pos (lineEnd e) == pos (lineEnd e')
  /\ lineSpeed e = lineSpeed e'.

(** ** Time order *)

(** The lines follow one another in time from [lo] on: each starts no
    earlier than the previous one ends and ends no earlier than it
    starts. *)
Fixpoint chain (lo : Q) (l : list Line) : Prop :=
  match l with
  | [] => True
  | e :: r =>
      lo <= at_ (lineStart e) /\ at_ (lineStart e) <= at_ (lineEnd e)
      /\ chain (at_ (lineEnd e)) r
  end.

(** Segments ordered ascending by time. *)
Definition ascending (segs : list Line) : Prop :=
  match segs with
  | [] => True
  | e :: _ => chain (at_ (lineStart e)) segs
  end.

(** The same, with [hi] no earlier than the last end. *)
Fixpoint chainTo (lo : Q) (l : list Line) (hi : Q) : Prop :=
  match l with
  | [] => lo <= hi
  | e :: r =>
      lo <= at_ (lineStart e) /\ at_ (lineStart e) <= at_ (lineEnd e)
      /\ chainTo (at_ (lineEnd e)) r hi
  end.

(** Stops at non-decreasing times between [lo] and [hi]. *)
Fixpoint stopsBetween (lo : Q) (l : list Stop) (hi : Q) : Prop :=
  match l with
  | [] => lo <= hi
  | s :: r => lo <= stopAt s /\ stopsBetween (stopAt s) r hi
  end.

(** Each number is [<=] the next. *)
Fixpoint nondecreasing (l : list num) : bool :=
  match l with
  | x :: r =>
      match r with
      | y :: _ => num_leb x y && nondecreasing r
      | [] => true
      end
  | [] => true
  end.

(** [Math.max(0, Math.min(1, q))] on a finite number. *)
Definition clamp01 (q : Q) : Q :=
  let m := if Qle_bool 1 q then 1 else q in
  if Qle_bool 0 m then m else 0.

(** ** Boundary stops *)

(** The stop that ends up first: the fade-in stop when the first line starts
    more than 100 ms after time 0, the stop at its start otherwise. *)
Definition firstStop (first : Line) : Stop :=
  if Qltb 100 (at_ (lineStart first))
  then mkStop (at_ (lineStart first) - 100) (Fin 0)
  else mkStop (at_ (lineStart first)) (lineSpeed first).

(** The stop that ends up last: the fade-out stop when the last line ends
    more than 100 ms before [durationMs], the stop at its end otherwise. *)
Definition lastStop (last : Line) (durationMs : Q) : Stop :=
  if Qltb (at_ (lineEnd last)) (durationMs - 100)
  then mkStop (at_ (lineEnd last) + 100) (Fin 0)
  else mkStop (at_ (lineEnd last)) (lineSpeed last).

(** The first offset is within 100 ms of offset 0; the last offset is within
    100 ms of offset 1. *)
Definition startsWithinPadding (durationMs : Q) (out : list GradientStop)
  : bool :=
  match out with
  | g :: _ => num_leb (offsetFraction g) (Fin (100 / durationMs))
  | [] => false
  end.

Definition endsWithinPadding (durationMs : Q) (out : list GradientStop)
  : bool :=
  match rev out with
  | g :: _ => num_leb (Fin (1 - 100 / durationMs)) (offsetFraction g)
  | [] => false
  end.

(** ** Paint order *)

(** A line, a stroke, is painted no later than another: its speed is [<=]
    the other's. *)
Definition speedLe (x y : Line) : Prop :=
  num_leb (lineSpeed x) (lineSpeed y) = true.

Definition strokeLe (c1 c2 : StrokeCommand) : Prop :=
  num_leb (strokeSpeed c1) (strokeSpeed c2) = true.

Definition isNaN (x : num) : bool :=
  match x with NaN => true | _ => false end.

(** No line has the speed [NaN]. *)
Definition noNaN (l : list Line) : Prop :=
  Forall (fun e => isNaN (lineSpeed e) = false) l.

(** ** Inputs used in the examples *)

(** A line from time [a] to time [b], moving from position 0 to position
    100, with speed [s]. *)
Definition lineAt (a b s : Q) : Line :=
  (mkFunAction a 0, mkFunAction b 100, Fin s).

(** ** Order and contiguity of entries *)

(** [l1] is [l2] with some entries left out, the others in their order. *)
Inductive Subseq (A : Type) : list A -> list A -> Prop :=
| Subseq_nil : Subseq [] []
| Subseq_skip (x : A) (l1 l2 : list A) : Subseq l1 l2 -> Subseq l1 (x :: l2)
| Subseq_take (x : A) (l1 l2 : list A) :
    Subseq l1 l2 -> Subseq (x :: l1) (x :: l2).

(** Each line ends at the keyframe the next one starts at. *)
Fixpoint contiguous (l : list Line) : Prop :=
  match l with
  | x :: r =>
      match r with
      | y :: _ => lineEnd x = lineStart y /\ contiguous r
      | [] => True
      end
  | [] => True
  end.

(** The time a line spans. *)
Definition lineSpan (e : Line) : Q := at_ (lineEnd e) - at_ (lineStart e).

(** ** Drawing area *)

(** A coordinate no smaller than [lo] and no larger than [hi]. *)
Definition coordBetween (lo hi x : num) : Prop :=
  num_leb lo x = true /\ num_leb x hi = true.

(** A stroke whose two points are inside the box of the drawing area: its
    top left corner is where the keyframe at time 0 and position 100 is
    drawn, its bottom right corner where the keyframe at [durationMs] and
    position 0 is drawn. *)
Definition strokeInside (durationMs lineWidth width height : Q)
    (c : StrokeCommand) : Prop :=
  let topLeft := mkFunAction 0 100 in
  let bottomRight := mkFunAction durationMs 0 in
  let left := strokeX durationMs lineWidth width topLeft in
  let right := strokeX durationMs lineWidth width bottomRight in
  let top := strokeY lineWidth height topLeft in
  let bottom := strokeY lineWidth height bottomRight in
  coordBetween left right (fromX c)
  /\ coordBetween left right (toX c)
  /\ coordBetween top bottom (fromY c)
  /\ coordBetween top bottom (toY c).

(** A keyframe within the duration and the position range. *)
Definition actionWithin (durationMs : Q) (a : FunAction) : Prop :=
  0 <= at_ a /\ at_ a <= durationMs /\ 0 <= pos a /\ pos a <= 100.

Definition lineWithin (durationMs : Q) (e : Line) : Prop :=
  actionWithin durationMs (lineStart e) /\ actionWithin durationMs (lineEnd e).

(** ** Text *)

Section TextModel.

Import String.

(** A string, as the sequence of its UTF-16 code units. *)
Definition Text : Type := list N.

(** The code units of a literal of the source (all of them ASCII). *)
Definition codes (s : string) : Text :=
  map Ascii.N_of_ascii (list_ascii_of_string s).

(** The six characters the regular expression of [textToSvgText] matches:
    ampersand, less-than, greater-than, double quote, single quote and
    slash. *)
Definition isSpecial (c : N) : bool :=
  ((c =? 38) || (c =? 60) || (c =? 62) || (c =? 34) || (c =? 39)
   || (c =? 47))%N.

(** The callback of [replace] with [entityMap]; a code unit the regular
    expression does not match stays as it is. *)
Definition escapeUnit (c : N) : Text :=
  if (c =? 38)%N then codes "&amp;"
  else if (c =? 60)%N then codes "&lt;"
  else if (c =? 62)%N then codes "&gt;"
  else if (c =? 34)%N then codes "&quot;"
  else if (c =? 39)%N then codes "&#39;"
  else if (c =? 47)%N then codes "&#x2F;"
  else [c].

(** [textToSvgText]; the empty string is returned as it is. *)
Definition textToSvgText (text : Text) : Text := flat_map escapeUnit text.

(** The suffix [toSvgG] appends to the title of a script one of whose
    actions has a position that is not finite. *)
Definition badSuffix : Text := codes "::bad".

End TextModel.

(** The ellipsis character U+2026, one code unit. *)
Definition ellipsis : N := 8230.

Section TextMeasure.

(** [isBrowser], and the width [context.measureText(text).width] the canvas
    gives for a text once [context.font] is set to a font. *)
Variable isBrowser : bool.
Variable measureText : Text -> Text -> Q.

Definition textToSvgLength (text font : Text) : Q :=
  if isBrowser then measureText font text else 0.

Variables (maxWidth : Q) (font : Text).

(** The [while] loop of [truncateTextWithEllipsis]: as long as the text is
    not empty and too wide with the ellipsis, its last code unit is cut
    ([text.slice(0, -1)]). *)
Equations? truncateLoop (text : Text) : Text by wf (length text) lt :=
  truncateLoop [] := [];
  truncateLoop (c :: r)
    with inspect (Qltb maxWidth
                    (textToSvgLength ((c :: r) ++ [ellipsis]) font)) := {
    | exist _ true _ := truncateLoop (removelast (c :: r))
    | exist _ false _ := c :: r }.
Proof.
  clear. revert c. induction r as [|x r IH]; intros c; [simpl; lia|].
  specialize (IH x). simpl in *. lia.
Qed.

Definition truncateTextWithEllipsis (text : Text) : Text :=
  match text with
  | [] => text
  | _ =>
      if Qle_bool (textToSvgLength text font) maxWidth then text
      else truncateLoop text ++ [ellipsis]
  end.

End TextMeasure.

(** ** Layout of one block ([toSvgG]) *)

Section BlockLayout.

(** The options and the environment [toSvgG] reads for the layout of the
    header: [width], [height], [titleHeight], [titleSpacing], [iconWidth],
    [ops.iconSpacing]; whether [titleSeparateLine] is not [false]; whether
    [titleEllipsis] holds; the font string [`${proportionalFontSize}px
    ${font}`] handed to every measurement; the number of keys of [stats];
    whether [badActions], the actions of the script whose position is not
    finite, is not empty. *)
Variables (width height titleHeight titleSpacing iconWidth opsIconSpacing : Q).
Variables (titleSeparateLine titleEllipsis : bool).
Variable isBrowser : bool.
Variable measureText : Text -> Text -> Q.
Variable fontSpec : Text.
Variable statCount : nat.
Variable hasBadActions : bool.

(** [iconWidth === 0 ? 0 : ops.iconSpacing] *)
Definition iconSpacing : Q :=
  if Qeq_bool iconWidth 0 then 0 else opsIconSpacing.

(** [xx.titleStart], [xx.graphWidth], [xx.statText(i)], [xx.titleText] and
    the getter [xx.textWidth], which reads [useSeparateLine]. *)
Definition titleStart : Q := iconWidth + iconSpacing.


Definition statText (i : nat) : Q :=
  roundQ (width - (7 + inject_Z (Z.of_nat i) * 46) * (titleHeight / 20)).

Definition titleTextX : Q := roundQ (titleStart + titleHeight * (1 # 5)).

Definition textWidth (useSeparateLine : bool) : Q :=
  statText (if useSeparateLine then 0%nat else statCount) - titleTextX.

Definition nonEmpty (text : Text) : bool :=
  match text with [] => false | _ :: _ => true end.

(** The first [if]: the title moves to a line of its own when it is wider
    than what is left beside the statistics. *)
Definition useSeparateLine (titleText : Text) : bool :=
  nonEmpty titleText && titleSeparateLine
  && Qltb (textWidth false)
          (textToSvgLength isBrowser measureText titleText fontSpec).

(** The second [if]: the title is truncated when it is still wider than the
    width of the line it is on. *)
Definition fittedTitle (titleText : Text) : Text :=
  let separate := useSeparateLine titleText in
  if nonEmpty titleText && titleEllipsis
     && Qltb (textWidth separate)
             (textToSvgLength isBrowser measureText titleText fontSpec)
  then truncateTextWithEllipsis isBrowser measureText (textWidth separate)
         fontSpec titleText
  else titleText.

(** The title handed to [textToSvgText] for the two [text] elements: after
    the truncation, [titleText += '::bad'] when [badActions.length] is not
    zero. *)
Definition shownTitle (titleText : Text) : Text :=
  if hasBadActions then fittedTitle titleText ++ badSuffix
  else fittedTitle titleText.

(** [yy.titleExtra], [yy.titleBottom], [yy.graphTop], [yy.svgBottom] and
    [graphHeight]. *)
Definition titleExtra (separate : bool) : Q :=
  if separate then titleHeight else 0.

Definition titleBottom (separate : bool) : Q :=
  roundQ (titleHeight + titleExtra separate).

Definition graphTop (separate : bool) : Q :=
  roundQ (titleBottom separate + titleSpacing).

Definition svgBottom (separate : bool) : Q :=
  roundQ (height + titleExtra separate).

Definition graphHeight : Q := height - titleHeight - titleSpacing.

End BlockLayout.

(** [iconOpacity]: [round(titleOpacity * Math.max(0.5, Math.min(1,
    stats.AvgSpeed / 100)))]; [avgSpeed] is what [toStats], which is not
    part of the sources at hand, reports. *)
Definition iconOpacity (titleOpacity : Q) (avgSpeed : num) : num :=
  round (num_mul (Fin titleOpacity)
           (num_max (Fin (1 # 2))
              (num_min (Fin 1) (num_div avgSpeed (Fin 100))))).

(** ** Stacking of the blocks ([toSvgElement]) *)

(** The [title] option: [null], a string, or a function of the script and
    of the suggested title. *)
Inductive TitleOption (Script : Type) : Type :=
| TitleNull
| TitleString (text : Text)
| TitleFunction (f : Script -> Text -> Text).
Arguments TitleNull {Script}.
Arguments TitleString {Script} text.

(** A block placed by [toSvgElement]: the ordinate of its [translate] and
    whether [toSvgG] gave its title a line of its own. *)
Record Piece : Type := mkPiece { pieceY : Q; pieceSeparate : bool }.

Section Stacking.

(** What the loop reads of a [Funscript], whose class is not part of the
    sources at hand: [s.file?.filePath] (empty when absent),
    [s.listChannels], [s.clone().normalize()], the number of keys of the
    statistics [toSvgG] shows for it as a script and as a secondary axis,
    and the number of chapters in its metadata. *)
Variable Script : Type.
Variable filePath : Script -> Text.
Variable listChannels : Script -> list Script.
Variable normalized : Script -> Script.
Variable statCountOf : bool -> Script -> nat.
Variable chapterCount : Script -> nat.

Variables (width height titleHeight titleSpacing iconWidth opsIconSpacing : Q).
Variables (titleSeparateLine titleEllipsis normalize showChapters : bool).
Variable chapterHeight : Q.
Variable title : TitleOption Script.
Variable isBrowser : bool.
Variable measureText : Text -> Text -> Q.
Variable fontSpec : Text.

(** The title [toSvgG] starts from, for a title option. *)
Definition resolveTitle (option : TitleOption Script) (s : Script) : Text :=
  match option with
  | TitleFunction f => f s (filePath s)
  | TitleString text => text
  | TitleNull => filePath s
  end.

(** The title option handed to [toSvgG]: [fullOps.title] for a script,
    [fullOps.title ?? ''] for its axes. *)
Definition titleFor (isSecondaryAxis : bool) : TitleOption Script :=
  if isSecondaryAxis
  then match title with TitleNull => TitleString [] | other => other end
  else title.

(** Whether [toSvgG] calls [ctx.onDoubleTitle()] for a block. *)
Definition doublesTitle (isSecondaryAxis : bool) (s : Script) : bool :=
  useSeparateLine width titleHeight iconWidth opsIconSpacing
    titleSeparateLine isBrowser measureText fontSpec
    (statCountOf isSecondaryAxis s)
    (resolveTitle (titleFor isSecondaryAxis) s).

(** One block: its [translate] ordinate is the value of [y] when the call
    is made; [onDoubleTitle] then adds [titleHeight], and the loop adds
    [height + SPACING_BETWEEN_AXES].  The piece is recorded with its
    ordinate and with whether its title took a line of its own. *)
Definition placeBlock (isSecondaryAxis : bool) (s : Script) (y : Q)
  : Piece * Q :=
  let separate := doublesTitle isSecondaryAxis s in
  (mkPiece y separate,
   (if separate then y + titleHeight else y) + (height + 0)).

Fixpoint placeAxes (axes : list Script) (y : Q) : list Piece * Q :=
  match axes with
  | [] => ([], y)
  | a :: rest =>
      let '(piece, y1) := placeBlock true a y in
      let '(pieces, y2) := placeAxes rest y1 in
      (piece :: pieces, y2)
  end.

(** The outer loop, with [SPACING_BETWEEN_FUNSCRIPTS = 4] and
    [SPACING_BETWEEN_AXES = 0]. *)
Fixpoint placeScripts (scripts : list Script) (y : Q) : list Piece * Q :=
  match scripts with
  | [] => ([], y)
  | s0 :: rest =>
      let s := if normalize then normalized s0 else s0 in
      let '(piece, y1) := placeBlock false s y in
      let '(axes, y2) := placeAxes (listChannels s) y1 in
      let y3 := y2 + (4 - 0) in
      let '(pieces, y4) := placeScripts rest y3 in
      (piece :: axes ++ pieces, y4)
  end.

(** [hasChapters ? fullOps.chapterHeight : 0] *)
Definition chapterOffset (scripts : list Script) : Q :=
  match scripts with
  | first :: _ =>
      if showChapters && negb (Nat.eqb (chapterCount first) 0)
      then chapterHeight else 0
  | [] => 0
  end.

(** The pieces, in order, and the [height] attribute of the [<svg>]
    element ([SVG_PADDING = 0]). *)
Definition toSvgElementLayout (scripts : list Script) : list Piece * Q :=
  let '(pieces, y) := placeScripts scripts (0 + chapterOffset scripts) in
  (pieces, roundQ (y - 4 + 0)).

(** The horizontal extent of the chapter bar, as [toSvgElement] computes
    it. *)
Definition chapterGraphWidth : Q :=
  width - iconWidth - (if Qltb 0 iconWidth then opsIconSpacing else 0).

Definition chapterXOffset : Q :=
  0 + iconWidth + (if Qltb 0 iconWidth then opsIconSpacing else 0).

(** The rectangle of a chapter from [startMs] to [endMs]: its [x] and
    [width] attributes, and whether its name is written
    ([chapterWidth > 30]). *)
Definition chapterStartX (durationMs startMs : Q) : num :=
  num_add (num_mul (num_div (Fin startMs) (Fin durationMs))
                   (Fin chapterGraphWidth))
          (Fin chapterXOffset).

Definition chapterWidth (durationMs startMs endMs : Q) : num :=
  num_sub (chapterStartX durationMs endMs) (chapterStartX durationMs startMs).



Definition chapterNamed (durationMs startMs endMs : Q) : bool :=
  num_ltb (Fin 30) (chapterWidth durationMs startMs endMs).

End Stacking.

(** The pieces are stacked from [y] down to [hi]: each starts no higher
    than where the previous one ends, its end being [height] further down,
    and [titleHeight] more when its title has a line of its own. *)
Fixpoint stacked (height titleHeight : Q) (y : Q) (pieces : list Piece)
    (hi : Q) : Prop :=
  match pieces with
  | [] => y <= hi
  | p :: rest =>
      y <= pieceY p
      /\ stacked height titleHeight
           (pieceY p + (height + titleExtra titleHeight (pieceSeparate p)))
           rest hi
  end.

(** The heights of the pieces added up. *)
Fixpoint totalExtent (height titleHeight : Q) (pieces : list Piece) : Q :=
  match pieces with
  | [] => 0
  | p :: rest =>
      (height + titleExtra titleHeight (pieceSeparate p))
      + totalExtent height titleHeight rest
  end.

(** * Properties *)

Section RedundancyFilter.

Variable A : Type.
Variable sp : A -> num.

Lemma last_cons (l : list A) : forall x y, last (y :: l) x = last l y.
Proof.
  induction l as [|z l IH]; intros x y; [reflexivity|].
  change (last (y :: z :: l) x) with (last (z :: l) x).
  rewrite (IH x z), (IH y z). reflexivity.
Qed.

Lemma lastOpt_snoc (l : list A) (e : A) : lastOpt (l ++ [e]) = Some e.
Proof.
  destruct l as [|x l]; simpl; [reflexivity|].
  f_equal. apply last_last.
Qed.

Lemma prev_entry (pre l : list A) :
  match length pre with
  | O => None
  | S j => nth_error (pre ++ l) j
  end = lastOpt pre.
Proof.
  destruct pre as [|x pre]; [reflexivity|].
  cbn [length lastOpt]. revert x.
  induction pre as [|y pre IH]; intros x; [reflexivity|].
  rewrite last_cons. exact (IH y).
Qed.

Lemma next_entry (pre : list A) (e : A) (r : list A) :
  nth_error (pre ++ e :: r) (S (length pre)) = hd_error r.
Proof.
  induction pre as [|x pre IH]; simpl; [|exact IH].
  destruct r; reflexivity.
Qed.

Lemma filterFrom_dedup (l pre : list A) :
  filterFrom (keepEntry sp) (pre ++ l) (length pre) l
  = dedup sp (lastOpt pre) l.
Proof.
  revert pre. induction l as [|e r IH]; intros pre; simpl; [reflexivity|].
  assert (Hk : keepEntry sp e (length pre) (pre ++ e :: r)
               = keepBetween sp (lastOpt pre) e (hd_error r)).
  { unfold keepEntry, keepBetween, sameSpeed.
    rewrite prev_entry, next_entry. reflexivity. }
  rewrite Hk.
  specialize (IH (pre ++ [e])).
  rewrite <- app_assoc, length_app, lastOpt_snoc in IH. simpl in IH.
  rewrite Nat.add_1_r in IH. rewrite IH. reflexivity.
Qed.

Lemma arrayFilter_dedup (l : list A) :
  arrayFilter (keepEntry sp) l = dedup sp None l.
Proof. exact (filterFrom_dedup l []). Qed.

Lemma runs_head (x : A) (r : list A) :
  exists g gs, runs sp (x :: r) = (x :: g) :: gs.
Proof.
  simpl. destruct (runs sp r) as [|[|y g] gs]; eauto.
  destruct (sameSpeed sp x y); eauto.
Qed.

Lemma runs_concat (l : list A) : concat (runs sp l) = l.
Proof.
  induction l as [|x r IH]; [reflexivity|].
  simpl. destruct r as [|y r']; [reflexivity|].
  destruct (runs_head y r') as (g & gs & E). rewrite E in *.
  destruct (sameSpeed sp x y); simpl in *; rewrite IH; reflexivity.
Qed.

Lemma runs_flat (l : list A) : forallb (flatRun sp) (runs sp l) = true.
Proof.
  induction l as [|x r IH]; [reflexivity|].
  simpl. destruct r as [|y r']; [reflexivity|].
  destruct (runs_head y r') as (g & gs & E). rewrite E in *.
  destruct (sameSpeed sp x y) eqn:S; simpl in *.
  - rewrite S. exact IH.
  - exact IH.
Qed.

Lemma runs_separated (l : list A) : separated sp (runs sp l) = true.
Proof.
  induction l as [|x r IH]; [reflexivity|].
  simpl. destruct r as [|y r']; [reflexivity|].
  destruct (runs_head y r') as (g & gs & E). rewrite E in *.
  destruct (sameSpeed sp x y) eqn:S.
  - cbn [separated] in *. destruct gs as [|[|y' g'] gs']; try exact IH.
    rewrite last_cons. exact IH.
  - cbn [separated last]. rewrite S. exact IH.
Qed.

(** What the filter leaves of [e :: l], when [e] continues the run of the
    preceding entry and when it does not. *)
Lemma dedup_runs_gen (l : list A) : forall (prev : option A) (e : A),
  dedup sp prev (e :: l)
  = match runs sp (e :: l) with
    | (x :: g) :: gs =>
        (if continues sp prev e then [last g x] else ends (x :: g))
        ++ flat_map ends gs
    | _ => []
    end.
Proof.
  induction l as [|n r IH]; intros prev e.
  - simpl. destruct prev as [p|]; simpl; [|reflexivity].
    destruct (sameSpeed sp p e); reflexivity.
  - change (dedup sp prev (e :: n :: r))
      with (if keepBetween sp prev e (Some n) then e :: dedup sp (Some e) (n :: r)
            else dedup sp (Some e) (n :: r)).
    rewrite (IH (Some e) n).
    change (runs sp (e :: n :: r))
      with (match runs sp (n :: r) with
            | (y :: g) :: gs =>
                if sameSpeed sp e y then (e :: y :: g) :: gs
                else [e] :: (y :: g) :: gs
            | _ => [[e]]
            end).
    destruct (runs_head n r) as (g & gs & E). rewrite E.
    cbn [continues].
    destruct (sameSpeed sp e n) eqn:S.
    + destruct prev as [p|]; cbn [keepBetween continues]; rewrite ?S.
      * destruct (sameSpeed sp p e); cbn [andb ends app];
          rewrite ?last_cons; reflexivity.
      * cbn [ends app]. rewrite last_cons. reflexivity.
    + assert (K : keepBetween sp prev e (Some n) = true).
      { destruct prev as [p|]; cbn [keepBetween]; [|reflexivity].
        rewrite S, andb_false_r. reflexivity. }
      rewrite K. destruct (continues sp prev e); reflexivity.
Qed.

Lemma dedup_runs (l : list A) : dedup sp None l = flat_map ends (runs sp l).
Proof.
  destruct l as [|e l]; [reflexivity|].
  rewrite dedup_runs_gen.
  destruct (runs_head e l) as (g & gs & E). rewrite E. reflexivity.
Qed.

Lemma ends_runs_no_triple (gs : list (list A)) :
  separated sp gs = true ->
  forallb (fun g => negb (Nat.eqb (length g) 0)) gs = true ->
  flatTriple sp (flat_map ends gs) = false.
Proof.
  induction gs as [|g rest IH]; [reflexivity|].
  intros Hs Hne. simpl in Hne. apply andb_true_iff in Hne as [Hg Hrest].
  destruct g as [|x r]; [simpl in Hg; discriminate|].
  assert (Hs' : separated sp rest = true).
  { simpl in Hs. destruct rest as [|[|y g'] rest']; try reflexivity.
    apply andb_true_iff in Hs as [_ Hs]. exact Hs. }
  specialize (IH Hs' Hrest).
  destruct rest as [|[|y g'] rest'].
  - simpl. destruct r; reflexivity.
  - simpl in Hrest. discriminate.
  - assert (Hseam : sameSpeed sp (last r x) y = false).
    { simpl in Hs. apply andb_true_iff in Hs as [Hs _].
      apply negb_true_iff in Hs. exact Hs. }
    assert (Hhd : exists t, flat_map ends ((y :: g') :: rest') = y :: t).
    { simpl. destruct g'; simpl; eauto. }
    destruct Hhd as (t & Ht).
    change (flat_map ends ((x :: r) :: (y :: g') :: rest'))
      with (ends (x :: r) ++ flat_map ends ((y :: g') :: rest')).
    rewrite Ht in *.
    destruct r as [|x' r'].
    + simpl in Hseam. cbn [ends app flatTriple].
      destruct t as [|z t']; [reflexivity|].
      rewrite Hseam. simpl andb. rewrite orb_false_l. exact IH.
    + cbn [ends app]. remember (last (x' :: r') x) as w.
      cbn [flatTriple]. rewrite Hseam, andb_false_r, orb_false_l.
      destruct t as [|z t']; [reflexivity|].
      simpl andb. rewrite orb_false_l. exact IH.
Qed.

Lemma runs_nonempty (l : list A) :
  forallb (fun g => negb (Nat.eqb (length g) 0)) (runs sp l) = true.
Proof.
  induction l as [|x r IH]; [reflexivity|].
  simpl. destruct (runs sp r) as [|[|y g] gs]; try reflexivity.
  destruct (sameSpeed sp x y); simpl in *; exact IH.
Qed.

Lemma dedup_no_triple (l : list A) : flatTriple sp (dedup sp None l) = false.
Proof.
  rewrite dedup_runs.
  apply ends_runs_no_triple; [apply runs_separated | apply runs_nonempty].
Qed.

Lemma dedup_fixed (l : list A) : forall prev,
  flatTriple sp (optList prev ++ l) = false -> dedup sp prev l = l.
Proof.
  induction l as [|e r IH]; intros prev H; [reflexivity|].
  simpl.
  assert (K : keepBetween sp prev e (hd_error r) = true).
  { destruct prev as [p|]; [|reflexivity].
    destruct r as [|n r']; [reflexivity|].
    simpl in H. apply orb_false_iff in H as [H _].
    cbn [keepBetween hd_error]. rewrite H. reflexivity. }
  rewrite K. f_equal. apply IH.
  destruct prev as [p|]; simpl in *.
  - destruct r as [|n r']; [reflexivity|].
    apply orb_false_iff in H as [_ H]. exact H.
  - exact H.
Qed.

Lemma dedup_idempotent (l : list A) :
  dedup sp None (dedup sp None l) = dedup sp None l.
Proof. apply dedup_fixed. simpl. apply dedup_no_triple. Qed.

End RedundancyFilter.

(** ** The merger *)

Lemma mergeLoop_step_gen (i : nat) (lines : list Line) (g m : bool) :
  g = (S i <? length lines)%nat ->
  m = mergeable (nth i lines noLine) (nth (S i) lines noLine) ->
  mergeLoop i lines
  = if g then
      if m
      then mergeLoop i
             (splice i 2
                [mergedLine (nth i lines noLine) (nth (S i) lines noLine)]
                lines)
      else mergeLoop (S i) lines
    else lines.
Proof.
  intros Hg Hm.
  rewrite mergeLoop_equation_1.
  unfold mergeLoop_unfold_clause_1.
  destruct (inspect (S i <? length lines)%nat) as [[|] H];
    rewrite H in Hg; subst g; [|reflexivity].
  unfold mergeLoop_unfold_clause_1_clause_2.
  destruct (inspect (mergeable (nth i lines noLine) (nth (S i) lines noLine)))
    as [[|] H2]; rewrite H2 in Hm; subst m; reflexivity.
Qed.

(** One turn of the loop. *)
Lemma mergeLoop_step (i : nat) (lines : list Line) :
  mergeLoop i lines
  = if (S i <? length lines)%nat then
      if mergeable (nth i lines noLine) (nth (S i) lines noLine)
      then mergeLoop i
             (splice i 2
                [mergedLine (nth i lines noLine) (nth (S i) lines noLine)]
                lines)
      else mergeLoop (S i) lines
    else lines.
Proof. apply mergeLoop_step_gen; reflexivity. Qed.

Lemma nth_middle_next (A : Type) (pre : list A) (x y d : A) (r : list A) :
  nth (S (length pre)) (pre ++ x :: y :: r) d = y.
Proof. induction pre as [|z pre IH]; simpl; [reflexivity | exact IH]. Qed.

Lemma splice_pair (A : Type) (pre : list A) (x y m : A) (r : list A) :
  splice (length pre) 2 [m] (pre ++ x :: y :: r) = pre ++ m :: r.
Proof.
  unfold splice.
  rewrite firstn_app, firstn_all, Nat.sub_diag. simpl firstn.
  rewrite app_nil_r. f_equal. simpl app. f_equal.
  rewrite skipn_app, skipn_all2 by lia.
  replace (length pre + 2 - length pre)%nat with 2%nat by lia.
  reflexivity.
Qed.

(** The loop at index [length pre], with [cur] under the index. *)
Lemma mergeLoop_at (pre : list Line) (x y : Line) (r : list Line) :
  mergeLoop (length pre) (pre ++ x :: y :: r)
  = if mergeable x y
    then mergeLoop (length pre) (pre ++ mergedLine x y :: r)
    else mergeLoop (S (length pre)) (pre ++ x :: y :: r).
Proof.
  rewrite mergeLoop_step.
  assert (G : (S (length pre) <? length (pre ++ x :: y :: r))%nat = true).
  { apply Nat.ltb_lt. rewrite length_app. simpl. lia. }
  rewrite G, nth_middle, nth_middle_next, splice_pair. reflexivity.
Qed.

Lemma mergeLoop_last (pre : list Line) (x : Line) :
  mergeLoop (length pre) (pre ++ [x]) = pre ++ [x].
Proof.
  rewrite mergeLoop_step.
  assert (G : (S (length pre) <? length (pre ++ [x]))%nat = false).
  { apply Nat.ltb_ge. rewrite length_app. simpl. lia. }
  rewrite G. reflexivity.
Qed.

Lemma mergeLoop_scan (rest : list Line) : forall (pre : list Line) (cur : Line),
  mergeLoop (length pre) (pre ++ cur :: rest) = pre ++ mergeScan cur rest.
Proof.
  induction rest as [|next rest IH]; intros pre cur.
  - apply mergeLoop_last.
  - rewrite mergeLoop_at. simpl mergeScan.
    destruct (mergeable cur next).
    + apply IH.
    + specialize (IH (pre ++ [cur]) next).
      rewrite length_app, Nat.add_1_r, <- app_assoc in IH.
      simpl app in IH. rewrite IH, <- app_assoc. reflexivity.
Qed.

Lemma mergeLines_nil : mergeLines [] = [].
Proof. unfold mergeLines. rewrite mergeLoop_step. reflexivity. Qed.

Lemma mergeLines_scan (cur : Line) (rest : list Line) :
  mergeLines (cur :: rest) = mergeScan cur rest.
Proof. exact (mergeLoop_scan rest [] cur). Qed.

(** ** The expander *)

Lemma Qltb_lt (x y : Q) : Qltb x y = true <-> x < y.
Proof.
  unfold Qltb. rewrite negb_true_iff. split; intros H.
  - apply Qnot_le_lt. intros L. apply Qle_bool_iff in L. congruence.
  - destruct (Qle_bool y x) eqn:E; [|reflexivity].
    apply Qle_bool_iff in E. exfalso. exact (Qlt_not_le _ _ H E).
Qed.

Lemma Qltb_ge (x y : Q) : Qltb x y = false <-> y <= x.
Proof.
  unfold Qltb. rewrite negb_false_iff. apply Qle_bool_iff.
Qed.

Lemma Qle_bool_gt (x y : Q) : Qle_bool x y = false <-> y < x.
Proof.
  rewrite <- Qltb_lt. unfold Qltb.
  destruct (Qle_bool x y); simpl; split; congruence.
Qed.

(** On the range of a signed 32-bit integer [~~] is the floor of a
    non-negative number. *)
Lemma toInt32_floor (q : Q) :
  0 <= q -> q < 2147483648 -> toInt32 q = Qfloor q.
Proof.
  intros H0 H1.
  assert (F0 : (0 <= Qfloor q)%Z).
  { change 0%Z with (Qfloor 0). apply Qfloor_resp_le. exact H0. }
  assert (F1 : (Qfloor q < 2147483648)%Z).
  { rewrite Zlt_Qlt. apply Qle_lt_trans with q; [apply Qfloor_le | exact H1]. }
  unfold toInt32.
  assert (E : Z.quot (Qnum q) (Zpos (Qden q)) = Qfloor q).
  { destruct q as [n d]. simpl.
    apply Z.quot_div_nonneg; [|reflexivity].
    unfold Qle in H0. simpl in H0. lia. }
  rewrite E. change (2 ^ 31)%Z with 2147483648%Z.
  change (2 ^ 32)%Z with 4294967296%Z.
  rewrite Z.mod_small; lia.
Qed.

Lemma expandLine_drop (a b : FunAction) (s : num) :
  at_ b - at_ a <= 0 -> expandLine (a, b, s) = [].
Proof.
  intros H. unfold expandLine.
  apply Qle_bool_iff in H. rewrite H. reflexivity.
Qed.

Lemma expandLine_keep (a b : FunAction) (s : num) :
  0 < at_ b - at_ a -> at_ b - at_ a < 2000 ->
  expandLine (a, b, s) = [(a, b, s)].
Proof.
  intros H0 H1. unfold expandLine.
  apply Qle_bool_gt in H0. apply Qltb_lt in H1.
  rewrite H0, H1. reflexivity.
Qed.

Lemma expandLine_split (a b : FunAction) (s : num) :
  2000 <= at_ b - at_ a -> at_ b - at_ a < 2147483648500 ->
  expandLine (a, b, s)
  = map (subLine a b s (Qfloor ((at_ b - at_ a - 500) / 1000)))
        (seq 0 (Z.to_nat (Qfloor ((at_ b - at_ a - 500) / 1000)))).
Proof.
  intros H0 H1. unfold expandLine.
  assert (P : Qle_bool (at_ b - at_ a) 0 = false).
  { apply Qle_bool_gt. lra. }
  assert (L : Qltb (at_ b - at_ a) 2000 = false).
  { apply Qltb_ge. exact H0. }
  rewrite P, L. cbv zeta.
  rewrite toInt32_floor; [reflexivity| |].
  - apply Qle_shift_div_l; lra.
  - apply Qlt_shift_div_r; lra.
Qed.

Lemma floor_span_2000 (x : Q) : x == 2000 -> Qfloor ((x - 500) / 1000) = 1%Z.
Proof.
  intros E.
  assert (E' : (x - 500) / 1000 == 3 # 2) by (rewrite E; reflexivity).
  rewrite E'. reflexivity.
Qed.

Lemma floor_span_pos (x : Q) :
  2000 <= x -> (1 <= Qfloor ((x - 500) / 1000))%Z.
Proof.
  intros H. change 1%Z with (Qfloor 1). apply Qfloor_resp_le.
  apply Qle_shift_div_l; lra.
Qed.

Lemma lerp_mono (a b t t' : Q) :
  a <= b -> t <= t' -> lerp a b t <= lerp a b t'.
Proof. intros H1 H2. unfold lerp. nra. Qed.

Lemma lerp_start (a b : Q) (N : Z) :
  lerp a b (inject_Z (Z.of_nat 0) / inject_Z N) == a.
Proof. unfold lerp. simpl inject_Z. unfold Qdiv. ring. Qed.

Lemma lerp_end (a b : Q) (N : Z) :
  (0 < N)%Z -> lerp a b (inject_Z N / inject_Z N) == b.
Proof.
  intros H. unfold lerp. field.
  intros E. unfold Qeq in E. simpl in E. lia.
Qed.

(** ** Time order through the pipeline *)

Lemma chainTo_weaken (l : list Line) (lo lo' hi : Q) :
  lo' <= lo -> chainTo lo l hi -> chainTo lo' l hi.
Proof.
  destruct l as [|e r]; simpl.
  - intros H1 H2. exact (Qle_trans _ _ _ H1 H2).
  - intros H1 (H2 & H3 & H4). repeat split; try assumption.
    exact (Qle_trans _ _ _ H1 H2).
Qed.

Lemma chainTo_app (l1 : list Line) : forall (l2 : list Line) (lo mid hi : Q),
  chainTo lo l1 mid -> chainTo mid l2 hi -> chainTo lo (l1 ++ l2) hi.
Proof.
  induction l1 as [|e r IH]; intros l2 lo mid hi H1 H2; simpl in *.
  - eapply chainTo_weaken; eassumption.
  - destruct H1 as (A1 & A2 & A3). repeat split; try assumption.
    eapply IH; eassumption.
Qed.

Lemma chainTo_chain (l : list Line) : forall (lo hi : Q),
  chainTo lo l hi -> chain lo l.
Proof.
  induction l as [|e r IH]; intros lo hi H; simpl in *; [exact I|].
  destruct H as (A1 & A2 & A3). repeat split; try assumption.
  eapply IH; eassumption.
Qed.

Lemma chain_chainTo (l : list Line) : forall (lo : Q) (e d : Line),
  chain lo (e :: l) -> chainTo lo (e :: l) (at_ (lineEnd (last (e :: l) d))).
Proof.
  induction l as [|x r IH]; intros lo e d H.
  - simpl in *. destruct H as (A1 & A2 & _). repeat split; try assumption.
    apply Qle_refl.
  - destruct H as (A1 & A2 & A3).
    change (last (e :: x :: r) d) with (last (x :: r) d).
    split; [exact A1|]. split; [exact A2|].
    apply IH. exact A3.
Qed.

Lemma subLines_chain (a b : FunAction) (s : num) (N : Z) :
  (0 < N)%Z -> at_ a <= at_ b ->
  forall (m k : nat), Z.of_nat (k + m) = N ->
    chainTo (lerp (at_ a) (at_ b) (inject_Z (Z.of_nat k) / inject_Z N))
            (map (subLine a b s N) (seq k m))
            (at_ b).
Proof.
  intros HN Hab. induction m as [|m IH]; intros k Hk.
  - simpl. rewrite Nat.add_0_r in Hk. rewrite Hk.
    rewrite lerp_end by exact HN. apply Qle_refl.
  - simpl. split; [apply Qle_refl|]. split.
    + apply lerp_mono; [exact Hab|].
      apply Qmult_le_compat_r.
      * rewrite <- Zle_Qle. lia.
      * apply Qinv_le_0_compat. change 0 with (inject_Z 0).
        rewrite <- Zle_Qle. lia.
    + specialize (IH (S k)).
      rewrite Nat2Z.inj_succ in IH. unfold Z.succ in IH.
      apply IH. lia.
Qed.

Lemma expandLine_chain (e : Line) (lo : Q) :
  lo <= at_ (lineStart e) -> at_ (lineStart e) <= at_ (lineEnd e) ->
  chainTo lo (expandLine e) (at_ (lineEnd e)).
Proof.
  destruct e as [[a b] s]. unfold lineStart, lineEnd. simpl fst. simpl snd.
  intros H1 H2. unfold expandLine.
  destruct (Qle_bool (at_ b - at_ a) 0); [exact (Qle_trans _ _ _ H1 H2)|].
  destruct (Qltb (at_ b - at_ a) 2000).
  - simpl. repeat split; try assumption. apply Qle_refl.
  - cbv zeta. set (N := toInt32 ((at_ b - at_ a - 500) / 1000)).
    destruct (Z_lt_le_dec 0 N) as [HN|HN].
    + apply chainTo_weaken
        with (lo := lerp (at_ a) (at_ b) (inject_Z (Z.of_nat 0) / inject_Z N)).
      * rewrite lerp_start. exact H1.
      * apply subLines_chain; [exact HN | exact H2 | lia].
    + replace (Z.to_nat N) with 0%nat by lia.
      exact (Qle_trans _ _ _ H1 H2).
Qed.

Lemma expandLines_chain (segs : list Line) : forall (lo hi : Q),
  chainTo lo segs hi -> chainTo lo (expandLines segs) hi.
Proof.
  induction segs as [|e r IH]; intros lo hi H; [exact H|].
  destruct H as (A1 & A2 & A3).
  change (expandLines (e :: r)) with (expandLine e ++ expandLines r).
  apply chainTo_app with (mid := at_ (lineEnd e)).
  - apply expandLine_chain; assumption.
  - apply IH. exact A3.
Qed.

Lemma mergeScan_chain (rest : list Line) : forall (cur : Line) (lo hi : Q),
  chainTo lo (cur :: rest) hi -> chainTo lo (mergeScan cur rest) hi.
Proof.
  induction rest as [|next rest IH]; intros cur lo hi H; [exact H|].
  simpl mergeScan. destruct (mergeable cur next).
  - apply IH.
    destruct cur as [[a b] ab], next as [[c d] cd].
    unfold mergedLine. simpl in *. unfold lineStart, lineEnd in *. simpl in *.
    destruct H as (A1 & A2 & A3 & A4 & A5).
    repeat split; try assumption. lra.
  - destruct H as (A1 & A2 & A3).
    split; [exact A1|]. split; [exact A2|]. apply IH. exact A3.
Qed.

Lemma mergeLines_chain (lines : list Line) (lo hi : Q) :
  chainTo lo lines hi -> chainTo lo (mergeLines lines) hi.
Proof.
  destruct lines as [|cur rest].
  - rewrite mergeLines_nil. exact (fun H => H).
  - rewrite mergeLines_scan. apply mergeScan_chain.
Qed.

Lemma mergeable_times (x y : Line) :
  mergeable x y = Qltb (at_ (lineEnd y) - at_ (lineStart x)) 1000.
Proof. destruct x as [[a b] ab], y as [[c d] cd]. reflexivity. Qed.

Lemma mergedLine_ends (x y : Line) :
  lineStart (mergedLine x y) = lineStart x
  /\ lineEnd (mergedLine x y) = lineEnd y.
Proof. destruct x as [[a b] ab], y as [[c d] cd]. split; reflexivity. Qed.

(** On lines in time order the scan leaves no pair that could be merged:
    the line under the index only grows to the right. *)
Lemma mergeScan_no_short_pair (rest : list Line) :
  forall (cur : Line) (lo hi : Q),
  chainTo lo (cur :: rest) hi ->
  exists h t,
    mergeScan cur rest = h :: t
    /\ lineStart h = lineStart cur
    /\ at_ (lineEnd cur) <= at_ (lineEnd h)
    /\ shortPair (h :: t) = false.
Proof.
  induction rest as [|next rest IH]; intros cur lo hi H.
  - exists cur, []. repeat split; try reflexivity. apply Qle_refl.
  - destruct H as (A1 & A2 & A3 & A4 & A5).
    cbn [mergeScan]. destruct (mergeable cur next) eqn:M.
    + destruct (mergedLine_ends cur next) as (Es & Ee).
      destruct (IH (mergedLine cur next) lo hi) as (h & t & E & S & L & P).
      { cbn [chainTo]. rewrite Es, Ee. repeat split; try assumption. lra. }
      exists h, t. rewrite S, Es. rewrite Ee in L.
      repeat split; try assumption. lra.
    + destruct (IH next (at_ (lineEnd cur)) hi) as (h & t & E & S & L & P).
      { cbn [chainTo]. repeat split; assumption. }
      exists cur, (h :: t). rewrite E.
      repeat split; try reflexivity; [apply Qle_refl|].
      change (shortPair (cur :: h :: t))
        with (mergeable cur h || shortPair (h :: t)).
      rewrite P, orb_false_r.
      rewrite mergeable_times in *.
      apply Qltb_ge. apply Qltb_ge in M. lra.
Qed.

Lemma mergeLines_no_short_pair (lines : list Line) :
  ascending lines -> shortPair (mergeLines lines) = false.
Proof.
  destruct lines as [|cur rest]; intros H.
  - rewrite mergeLines_nil. reflexivity.
  - rewrite mergeLines_scan.
    apply chain_chainTo with (d := cur) in H.
    destruct (mergeScan_no_short_pair H) as (h & t & E & _ & _ & P).
    rewrite E. exact P.
Qed.

(** ** Stops in time order, offsets in order *)

Lemma stopsBetween_weaken (l : list Stop) (lo lo' hi : Q) :
  lo' <= lo -> stopsBetween lo l hi -> stopsBetween lo' l hi.
Proof.
  destruct l as [|s r]; simpl.
  - intros H1 H2. exact (Qle_trans _ _ _ H1 H2).
  - intros H1 (H2 & H3). split; [exact (Qle_trans _ _ _ H1 H2) | exact H3].
Qed.

Lemma stopsBetween_app (l1 : list Stop) :
  forall (l2 : list Stop) (lo mid hi : Q),
  stopsBetween lo l1 mid -> stopsBetween mid l2 hi ->
  stopsBetween lo (l1 ++ l2) hi.
Proof.
  induction l1 as [|s r IH]; intros l2 lo mid hi H1 H2; simpl in *.
  - eapply stopsBetween_weaken; eassumption.
  - destruct H1 as (A1 & A2). split; [exact A1|].
    eapply IH; eassumption.
Qed.

Lemma dedup_stopsBetween (l : list Stop) :
  forall (prev : option Stop) (lo hi : Q),
  stopsBetween lo l hi -> stopsBetween lo (dedup stopSpeed prev l) hi.
Proof.
  induction l as [|s r IH]; intros prev lo hi H; [exact H|].
  destruct H as (H1 & H2). simpl dedup.
  destruct (keepBetween stopSpeed prev s (hd_error r)).
  - split; [exact H1|]. apply IH. exact H2.
  - apply stopsBetween_weaken with (lo := stopAt s); [exact H1|].
    apply IH. exact H2.
Qed.

Lemma midStop_between (e : Line) :
  at_ (lineStart e) <= at_ (lineEnd e) ->
  at_ (lineStart e) <= stopAt (midStop e)
  /\ stopAt (midStop e) <= at_ (lineEnd e).
Proof.
  destruct e as [[a b] s]. unfold lineStart, lineEnd. simpl.
  intros H. split.
  - apply Qle_shift_div_l; lra.
  - apply Qle_shift_div_r; lra.
Qed.

Lemma mids_between (lines : list Line) :
  forall (prev : option Line) (lo hi : Q),
  chainTo lo lines hi ->
  stopsBetween lo (map midStop (dedup lineSpeed prev lines)) hi.
Proof.
  induction lines as [|e r IH]; intros prev lo hi H; [exact H|].
  destruct H as (H1 & H2 & H3).
  destruct (midStop_between e H2) as (M1 & M2).
  specialize (IH (Some e) _ _ H3).
  simpl dedup. destruct (keepBetween lineSpeed prev e (hd_error r)).
  - simpl map. split; [exact (Qle_trans _ _ _ H1 M1)|].
    eapply stopsBetween_weaken; eassumption.
  - apply stopsBetween_weaken with (lo := at_ (lineEnd e)); [lra | exact IH].
Qed.

(** After boundary synthesis the stops are still in time order. *)
Lemma boundary_between (first : Line) (rest : list Line) (d : Q)
    (mids : list Stop) :
  stopsBetween (at_ (lineStart first)) mids
               (at_ (lineEnd (last (first :: rest) first))) ->
  exists lo hi,
    stopsBetween lo (addBoundaryStops (first :: rest) d mids) hi.
Proof.
  intros H. unfold addBoundaryStops.
  set (a := at_ (lineStart first)) in *.
  set (z := at_ (lineEnd (last (first :: rest) first))) in *.
  set (startStop := mkStop a (lineSpeed first)).
  set (endStop := mkStop z (lineSpeed (last (first :: rest) first))).
  assert (S1 : stopsBetween a (startStop :: mids) z).
  { split; [apply Qle_refl | exact H]. }
  assert (S2 : exists lo,
             stopsBetween lo
               (if Qltb 100 a then mkStop (a - 100) (Fin 0) :: startStop :: mids
                else startStop :: mids) z).
  { destruct (Qltb 100 a).
    - exists (a - 100). split; [apply Qle_refl|].
      apply stopsBetween_weaken with (lo := a); [simpl; lra | exact S1].
    - exists a. exact S1. }
  destruct S2 as (lo & S2). exists lo.
  assert (S3 : stopsBetween z [endStop] z).
  { split; apply Qle_refl. }
  pose proof (@stopsBetween_app _ _ _ _ _ S2 S3) as S4.
  destruct (Qltb z (d - 100)).
  - exists (z + 100). eapply stopsBetween_app; [exact S4|].
    simpl. split; lra.
  - exists z. exact S4.
Qed.

Lemma stopOffset_nonzero (d : Q) (s : Stop) :
  ~ d == 0 -> stopOffset d s = Fin (roundQ (clamp01 (stopAt s / d))).
Proof.
  intros H. unfold stopOffset, num_div.
  assert (S : Qsign d <> Eq).
  { unfold Qsign. intros E. apply Z.compare_eq_iff in E.
    apply H. unfold Qeq. simpl. lia. }
  assert (G : forall q : num,
             match Qsign d with Eq => q | _ => Fin (stopAt s / d) end
             = Fin (stopAt s / d)).
  { intros q. destruct (Qsign d); congruence. }
  rewrite G.
  unfold clamp01, num_min, num_leb.
  destruct (Qle_bool 1 (stopAt s / d)); unfold num_max, num_leb;
    match goal with |- context [Qle_bool 0 ?m] => destruct (Qle_bool 0 m) end;
    reflexivity.
Qed.

Lemma clamp01_range (q : Q) : 0 <= clamp01 q /\ clamp01 q <= 1.
Proof.
  unfold clamp01.
  destruct (Qle_bool 1 q) eqn:E1.
  - simpl. split; lra.
  - apply Qle_bool_gt in E1.
    destruct (Qle_bool 0 q) eqn:E0.
    + apply Qle_bool_iff in E0. split; lra.
    + split; lra.
Qed.

Lemma clamp01_mono (x y : Q) : x <= y -> clamp01 x <= clamp01 y.
Proof.
  intros H. unfold clamp01.
  destruct (Qle_bool 1 x) eqn:X1; destruct (Qle_bool 1 y) eqn:Y1;
    try apply Qle_bool_iff in X1; try apply Qle_bool_iff in Y1;
    try apply Qle_bool_gt in X1; try apply Qle_bool_gt in Y1;
    simpl; try lra.
  - destruct (Qle_bool 0 x) eqn:X0;
      try apply Qle_bool_iff in X0; try apply Qle_bool_gt in X0; lra.
  - destruct (Qle_bool 0 x) eqn:X0; destruct (Qle_bool 0 y) eqn:Y0;
      try apply Qle_bool_iff in X0; try apply Qle_bool_iff in Y0;
      try apply Qle_bool_gt in X0; try apply Qle_bool_gt in Y0; lra.
Qed.

Lemma toFixed2_mono (x y : Q) : x <= y -> toFixed2 x <= toFixed2 y.
Proof.
  intros H. unfold toFixed2. rewrite !Qred_correct.
  apply Qmult_le_compat_r; [|discriminate].
  rewrite <- Zle_Qle. apply Qfloor_resp_le. lra.
Qed.

Lemma roundQ_nonneg (x : Q) : 0 <= x -> roundQ x = toFixed2 x.
Proof.
  intros H. unfold roundQ. apply Qltb_ge in H. rewrite H. reflexivity.
Qed.

Lemma offsets_nondecreasing (d : Q) (l : list Stop) :
  0 < d -> forall lo hi, stopsBetween lo l hi ->
  nondecreasing (map (stopOffset d) l) = true.
Proof.
  intros Hd. induction l as [|s r IH]; intros lo hi H; [reflexivity|].
  destruct H as (_ & H).
  destruct r as [|s' r']; [reflexivity|].
  change (nondecreasing (map (stopOffset d) (s :: s' :: r')))
    with (num_leb (stopOffset d s) (stopOffset d s')
          && nondecreasing (map (stopOffset d) (s' :: r'))).
  rewrite (IH _ _ H), andb_true_r.
  rewrite !stopOffset_nonzero by lra. simpl num_leb.
  apply Qle_bool_iff.
  rewrite !roundQ_nonneg by apply clamp01_range.
  apply toFixed2_mono, clamp01_mono.
  destruct H as (H & _).
  apply Qmult_le_compat_r; [exact H|].
  apply Qinv_le_0_compat. lra.
Qed.

(** ** The sort of the geometry mapper *)

Lemma insertLine_perm (x : Line) (l : list Line) :
  Permutation (x :: l) (insertLine x l).
Proof.
  induction l as [|y r IH]; cbn [insertLine]; [apply Permutation_refl|].
  destruct (num_ltb (Fin 0) (compareSpeed x y)).
  - apply perm_trans with (y :: x :: r); [apply perm_swap|].
    apply perm_skip. exact IH.
  - apply Permutation_refl.
Qed.

Lemma sortLines_perm (l : list Line) : Permutation l (sortLines l).
Proof.
  induction l as [|x r IH]; simpl; [apply perm_nil|].
  apply perm_trans with (x :: sortLines r).
  - apply perm_skip. exact IH.
  - apply insertLine_perm.
Qed.

(** The comparator decides the order of two speeds, none of them [NaN]. *)
Lemma compare_positive (x y : num) :
  isNaN x = false -> isNaN y = false ->
  num_ltb (Fin 0) (num_sub x y) = true -> num_leb y x = true.
Proof.
  destruct x as [a| | |], y as [b| | |]; simpl; try discriminate;
    try reflexivity.
  intros _ _ H. apply Qltb_lt in H. apply Qle_bool_iff. lra.
Qed.

Lemma compare_not_positive (x y : num) :
  isNaN x = false -> isNaN y = false ->
  num_ltb (Fin 0) (num_sub x y) = false -> num_leb x y = true.
Proof.
  destruct x as [a| | |], y as [b| | |]; simpl; try discriminate;
    try reflexivity.
  intros _ _ H. apply Qltb_ge in H. apply Qle_bool_iff. lra.
Qed.

Lemma num_leb_trans (x y z : num) :
  num_leb x y = true -> num_leb y z = true -> num_leb x z = true.
Proof.
  destruct x as [a| | |], y as [b| | |], z as [c| | |]; simpl;
    try discriminate; try reflexivity.
  intros H1 H2. apply Qle_bool_iff in H1, H2. apply Qle_bool_iff. lra.
Qed.

Lemma insertLine_noNaN (x : Line) (l : list Line) :
  isNaN (lineSpeed x) = false -> noNaN l -> noNaN (insertLine x l).
Proof.
  intros Hx Hl. unfold noNaN in *. rewrite Forall_forall in *.
  intros e He.
  apply (Permutation_in _ (Permutation_sym (insertLine_perm x l))) in He.
  destruct He as [<-|He]; [exact Hx | exact (Hl _ He)].
Qed.

Lemma insertLine_sorted (x : Line) (l : list Line) :
  isNaN (lineSpeed x) = false -> noNaN l ->
  Sorted speedLe l -> Sorted speedLe (insertLine x l).
Proof.
  intros Hx Hl Hs. induction Hs as [|y r Hr IH Hd]; cbn [insertLine].
  - repeat constructor.
  - inversion Hl as [|? ? Hy Hl']; subst.
    destruct (num_ltb (Fin 0) (compareSpeed x y)) eqn:C.
    + constructor; [exact (IH Hl')|].
      assert (Lyx : speedLe y x) by (exact (compare_positive _ _ Hx Hy C)).
      destruct r as [|z r']; cbn [insertLine].
      * constructor. exact Lyx.
      * destruct (num_ltb (Fin 0) (compareSpeed x z)).
        -- constructor. inversion Hd; subst. assumption.
        -- constructor. exact Lyx.
    + constructor; [constructor; assumption|].
      constructor. exact (compare_not_positive _ _ Hx Hy C).
Qed.

Lemma sortLines_sorted (l : list Line) :
  noNaN l -> noNaN (sortLines l) /\ Sorted speedLe (sortLines l).
Proof.
  induction l as [|x r IH]; intros H; simpl.
  - split; constructor.
  - inversion H as [|? ? Hx Hr]; subst.
    destruct (IH Hr) as (N & S). split.
    + apply insertLine_noNaN; assumption.
    + apply insertLine_sorted; assumption.
Qed.

Lemma speedLe_trans : Relations_1.Transitive speedLe.
Proof. intros x y z. unfold speedLe. apply num_leb_trans. Qed.

Lemma strokeSpeed_lineToStroke (d lw w h : Q) (e : Line) :
  strokeSpeed (lineToStroke d lw w h e) = lineSpeed e.
Proof. destruct e as [[a b] s]. reflexivity. Qed.

Lemma strokes_sorted (d lw w h : Q) (l : list Line) :
  StronglySorted speedLe l ->
  StronglySorted strokeLe (map (lineToStroke d lw w h) l).
Proof.
  induction 1 as [|x r Hr IH Hx]; simpl; constructor; [exact IH|].
  rewrite Forall_map. rewrite Forall_forall in *. intros y Hy.
  unfold strokeLe. rewrite !strokeSpeed_lineToStroke. exact (Hx _ Hy).
Qed.

(** ** What the final filter keeps, what the offsets are *)

Lemma flatTriple_map (A B : Type) (spA : A -> num) (spB : B -> num)
    (f : A -> B) (l : list A) :
  (forall x, spB (f x) = spA x) ->
  flatTriple spB (map f l) = flatTriple spA l.
Proof.
  intros H. induction l as [|x r IH]; [reflexivity|].
  destruct r as [|y [|z r']]; try reflexivity.
  change (flatTriple spB (map f (x :: y :: z :: r')))
    with ((sameSpeed spB (f x) (f y) && sameSpeed spB (f y) (f z))
          || flatTriple spB (map f (y :: z :: r'))).
  rewrite IH. unfold sameSpeed. rewrite !H. reflexivity.
Qed.

Lemma dedup_snoc (A : Type) (sp : A -> num) (l : list A) :
  forall (prev : option A) (x : A),
  exists kept, dedup sp prev (l ++ [x]) = kept ++ [x].
Proof.
  induction l as [|e r IH]; intros prev x.
  - exists []. simpl. destruct prev; reflexivity.
  - destruct (IH (Some e) x) as (kept & E).
    simpl. rewrite E.
    destruct (keepBetween sp prev e (hd_error (r ++ [x]))).
    + exists (e :: kept). reflexivity.
    + exists kept. reflexivity.
Qed.

Lemma addBoundaryStops_shape (first : Line) (rest : list Line) (d : Q)
    (mids : list Stop) :
  exists inner,
    addBoundaryStops (first :: rest) d mids
    = firstStop first :: inner ++ [lastStop (last rest first) d].
Proof.
  unfold addBoundaryStops, firstStop, lastStop.
  rewrite last_cons.
  set (z := last rest first).
  destruct (Qltb 100 (at_ (lineStart first)));
    destruct (Qltb (at_ (lineEnd z)) (d - 100)).
  - exists (mkStop (at_ (lineStart first)) (lineSpeed first)
            :: mids ++ [mkStop (at_ (lineEnd z)) (lineSpeed z)]).
    reflexivity.
  - exists (mkStop (at_ (lineStart first)) (lineSpeed first) :: mids).
    reflexivity.
  - exists (mids ++ [mkStop (at_ (lineEnd z)) (lineSpeed z)]).
    reflexivity.
  - exists mids. reflexivity.
Qed.

Lemma roundQ_comp (x y : Q) : x == y -> roundQ x = roundQ y.
Proof.
  intros E. unfold roundQ, toFixed2, Qltb.
  assert (B : Qle_bool 0 x = Qle_bool 0 y).
  { destruct (Qle_bool 0 x) eqn:X; destruct (Qle_bool 0 y) eqn:Y;
      try reflexivity.
    - apply Qle_bool_iff in X. apply Qle_bool_gt in Y. lra.
    - apply Qle_bool_iff in Y. apply Qle_bool_gt in X. lra. }
  rewrite B. destruct (Qle_bool 0 y); simpl negb; cbv iota.
  - apply Qred_complete. rewrite E. reflexivity.
  - apply Qred_complete. rewrite !Qred_correct. rewrite E. reflexivity.
Qed.

Lemma stopOffset_zero (d : Q) (s : Stop) :
  d == 0 ->
  stopOffset d s
  = match Qsign (stopAt s) with Eq => NaN | Gt => Fin 1 | Lt => Fin 0 end.
Proof.
  intros H. unfold stopOffset, num_div.
  assert (S : Qsign d = Eq).
  { unfold Qsign. apply Z.compare_eq_iff.
    unfold Qeq in H. simpl in H. lia. }
  rewrite S. destruct (Qsign (stopAt s)); reflexivity.
Qed.

Lemma stopOffset_negative (d : Q) (s : Stop) :
  d < 0 -> 0 <= stopAt s -> stopOffset d s = Fin 0.
Proof.
  intros Hd Hs.
  rewrite stopOffset_nonzero by lra.
  transitivity (Fin (roundQ 0)); [|reflexivity]. f_equal. apply roundQ_comp.
  assert (Q0 : stopAt s / d <= 0).
  { setoid_replace (stopAt s / d) with (- (stopAt s / (- d))).
    - assert (0 <= stopAt s / - d); [|lra].
      apply Qle_shift_div_l; lra.
    - field. lra. }
  unfold clamp01.
  destruct (Qle_bool 1 (stopAt s / d)) eqn:E1.
  - apply Qle_bool_iff in E1. lra.
  - destruct (Qle_bool 0 (stopAt s / d)) eqn:E0; [|reflexivity].
    apply Qle_bool_iff in E0. lra.
Qed.

(** * The claims of the specification *)

(** ** Error handling *)

(** C1, as stated, fails: with [durationMs = 0] and one line from 0 to
    1000 ms the call is not rejected; it returns two stops, the first with
    the offset [NaN] (0 / 0) and the second with the offset 1. *)
Lemma gradient_zero_duration_returns_NaN :
  toSvgBackgroundGradient_call [lineAt 0 1000 50] 0
  = Returned [mkGradientStop NaN (Fin 50) (Some (Fin (1 # 2)));
              mkGradientStop (Fin 1) (Fin 50) (Some (Fin (1 # 2)))]
  /\ toSvgBackgroundGradient_call [lineAt 0 1000 50] 0 <> Thrown.
Proof. split; [vm_compute; reflexivity | discriminate]. Qed.

(** C1, amended: [toSvgBackgroundGradient] does not validate [durationMs].
    For every segment list and every [durationMs <= 0] the call returns the
    list of stops.  With [durationMs = 0] the offset of a stop is [NaN] at
    time 0, 1 at a positive time, 0 at a negative time; with a negative
    [durationMs] the offset of every stop at a non-negative time is 0. *)
Theorem gradient_nonpositive_duration (segs : list Line) (durationMs : Q) :
  durationMs <= 0 ->
  toSvgBackgroundGradient_call segs durationMs
  = Returned (map (stopElement durationMs) (gradientStops segs durationMs))
  /\ (forall s : Stop,
        durationMs == 0 ->
        offsetFraction (stopElement durationMs s)
        = match Qsign (stopAt s) with
          | Eq => NaN
          | Gt => Fin 1
          | Lt => Fin 0
          end)
  /\ (forall s : Stop,
        durationMs < 0 -> 0 <= stopAt s ->
        offsetFraction (stopElement durationMs s) = Fin 0).
Proof.
  intros _. split; [reflexivity|]. split.
  - intros s H. apply stopOffset_zero. exact H.
  - intros s H1 H2. apply stopOffset_negative; assumption.
Qed.

Lemma gradient_nonpositive_duration_witness :
  0 <= 0
  /\ toSvgBackgroundGradient_call [lineAt 0 1000 50] 0
     = Returned (map (stopElement 0) (gradientStops [lineAt 0 1000 50] 0)).
Proof.
  split; [apply Qle_refl|].
  apply (gradient_nonpositive_duration [lineAt 0 1000 50] (Qle_refl 0)).
Defined.

(** ** End-to-end scenario *)

(** C2, as stated, fails: for one line from 0 to 10000 ms of speed 50 and
    [durationMs = 10000] the two offsets are not near 0.055 and 0.944. *)
Lemma single_segment_offsets_not_midpoints :
  ~ (exists o1 o2 : Q,
       map offsetFraction (toSvgBackgroundGradient [lineAt 0 10000 50] 10000)
       = [Fin o1; Fin o2]
       /\ Qabs (o1 - 0.055) <= 0.01
       /\ Qabs (o2 - 0.944) <= 0.01).
Proof.
  intros (o1 & o2 & E & H1 & _).
  vm_compute in E. injection E as E1 E2. subst o1.
  vm_compute in H1. apply H1. reflexivity.
Qed.

(** C2, amended: for one line from 0 to 10000 ms of speed 50 and
    [durationMs = 10000] the expander gives 9 sub-lines, the merger leaves
    them, the first filter keeps the first and the last, whose midpoints have
    the offsets 0.06 and 0.94 once rounded; boundary synthesis adds a stop at
    the start (time 0) and a stop at the end (time 10000), and the final
    filter drops the two midpoint stops between them.  The result is exactly
    2 stops, both of speed 50 and opacity 0.5, at the offsets 0 and 1. *)
Theorem single_segment_gradient :
  length (expandLines [lineAt 0 10000 50]) = 9%nat
  /\ mergeLines (expandLines [lineAt 0 10000 50])
     = expandLines [lineAt 0 10000 50]
  /\ map (stopOffset 10000)
         (map midStop
            (filterLines (mergeLines (expandLines [lineAt 0 10000 50]))))
     = [Fin (3 # 50); Fin (47 # 50)]
  /\ toSvgBackgroundGradient [lineAt 0 10000 50] 10000
     = [mkGradientStop (Fin 0) (Fin 50) (Some (Fin (1 # 2)));
        mkGradientStop (Fin 1) (Fin 50) (Some (Fin (1 # 2)))].
Proof. repeat split; vm_compute; reflexivity. Qed.

(** ** Boundary coverage *)

(** C3, as stated, fails: for one line from 5000 to 6000 ms and
    [durationMs = 10000] the first offset is 0.49 and the last is 0.61,
    neither within 100 ms (0.01) of 0 and of 1. *)
Lemma boundary_stops_far_from_edges :
  [lineAt 5000 6000 50] <> []
  /\ map offsetFraction (toSvgBackgroundGradient [lineAt 5000 6000 50] 10000)
     = [Fin 0.49; Fin (1 # 2); Fin (3 # 5); Fin 0.61]
  /\ startsWithinPadding 10000
       (toSvgBackgroundGradient [lineAt 5000 6000 50] 10000) = false
  /\ endsWithinPadding 10000
       (toSvgBackgroundGradient [lineAt 5000 6000 50] 10000) = false.
Proof. split; [discriminate|]. repeat split; vm_compute; reflexivity. Qed.

(** C3, amended: whenever the expanded and merged line list is not empty,
    the first output stop is the zero-speed fade-in stop 100 ms before the
    start of the first line when that line starts more than 100 ms after
    time 0, and the stop at the start of the first line, with its speed,
    otherwise; the last output stop is the zero-speed fade-out stop 100 ms
    after the end of the last line when that line ends more than 100 ms
    before [durationMs], and the stop at the end of the last line, with its
    speed, otherwise.  The padding window is around the first start and the
    last end, not around 0 and [durationMs]. *)
Theorem boundary_stops (segs : list Line) (durationMs : Q)
    (first : Line) (rest : list Line) :
  mergeLines (expandLines segs) = first :: rest ->
  exists inner : list GradientStop,
    toSvgBackgroundGradient segs durationMs
    = stopElement durationMs (firstStop first)
      :: inner
      ++ [stopElement durationMs (lastStop (last rest first) durationMs)].
Proof.
  intros E. unfold toSvgBackgroundGradient, gradientStops.
  rewrite E. cbv zeta.
  destruct (addBoundaryStops_shape first rest durationMs
              (map midStop (filterLines (first :: rest)))) as (mid & S).
  rewrite S. unfold filterStops. rewrite arrayFilter_dedup.
  cbn [dedup keepBetween].
  destruct (dedup_snoc stopSpeed mid (Some (firstStop first))
              (lastStop (last rest first) durationMs)) as (kept & K).
  rewrite K. exists (map (stopElement durationMs) kept).
  cbn [map]. rewrite map_app. reflexivity.
Qed.

Lemma boundary_stops_witness :
  exists inner : list GradientStop,
    toSvgBackgroundGradient [lineAt 5000 6000 50] 10000
    = stopElement 10000 (firstStop (lineAt 5000 6000 50))
      :: inner ++ [stopElement 10000 (lastStop (lineAt 5000 6000 50) 10000)].
Proof.
  apply (@boundary_stops [lineAt 5000 6000 50] 10000
           (lineAt 5000 6000 50) []).
  vm_compute. reflexivity.
Defined.

(** ** Interval expander *)

(** C4: the code departs from the claim on a line spanning 2147483648500 ms.
    The span exceeds 2000 ms and [floor((span - 500) / 1000)] is 2147483648,
    so the line is to be replaced by that many sub-lines; the expander
    returns no sub-line at all and the line is lost, because [~~] reduces
    the quotient to a signed 32-bit integer, here -2147483648, which
    [Array.from] takes as a length of zero. *)
Lemma expandLine_span_beyond_int32 :
  let e := lineAt 0 2147483648500 50 in
  let span := at_ (lineEnd e) - at_ (lineStart e) in
  2000 < span
  /\ Qfloor ((span - 500) / 1000) = 2147483648%Z
  /\ toInt32 ((span - 500) / 1000) = (-2147483648)%Z
  /\ expandLine e = []
  /\ expandLine e
     <> map (subLine (lineStart e) (lineEnd e) (lineSpeed e)
               (Qfloor ((span - 500) / 1000)))
            (seq 0 (Z.to_nat (Qfloor ((span - 500) / 1000)))).
Proof.
  cbv zeta.
  assert (F : Qfloor ((at_ (lineEnd (lineAt 0 2147483648500 50))
                       - at_ (lineStart (lineAt 0 2147483648500 50)) - 500)
                      / 1000) = 2147483648%Z)
    by (vm_compute; reflexivity).
  assert (E : expandLine (lineAt 0 2147483648500 50) = [])
    by (vm_compute; reflexivity).
  split; [reflexivity|]. split; [exact F|].
  split; [vm_compute; reflexivity|]. split; [exact E|].
  rewrite E, F. intros H.
  apply (f_equal (@length Line)) in H.
  rewrite length_map, length_seq in H. simpl length in H. lia.
Qed.

(** Where the quotient [(span - 500) / 1000] fits a signed 32-bit integer
    the expander does what it is meant to do: a line of non-positive span is
    dropped; a line of span at most 2000 ms passes through with its times,
    positions and speed unchanged; a line whose span exceeds 2000 ms (and
    stays below 2147483648500 ms) is replaced by exactly
    [N = floor((span - 500) / 1000)] sub-lines, the [i]-th from the
    interpolation at [i / N] to the interpolation at [(i + 1) / N] of the
    times and of the positions, each with the speed of the line. *)
Theorem expandLine_cases (a b : FunAction) (s : num) :
  let span := at_ b - at_ a in
  let N := Qfloor ((span - 500) / 1000) in
  (span <= 0 -> expandLine (a, b, s) = [])
  /\ (0 < span -> span < 2000 -> expandLine (a, b, s) = [(a, b, s)])
  /\ (0 < span -> span <= 2000 ->
      exists e', expandLine (a, b, s) = [e'] /\ lineEquiv (a, b, s) e')
  /\ (2000 < span -> span < 2147483648500 ->
      (1 <= N)%Z
      /\ length (expandLine (a, b, s)) = Z.to_nat N
      /\ expandLine (a, b, s) = map (subLine a b s N) (seq 0 (Z.to_nat N)))
  /\ (forall i : nat,
        subLine a b s N i
        = (mkFunAction
             (lerp (at_ a) (at_ b) (inject_Z (Z.of_nat i) / inject_Z N))
             (lerp (pos a) (pos b) (inject_Z (Z.of_nat i) / inject_Z N)),
           mkFunAction
             (lerp (at_ a) (at_ b) (inject_Z (Z.of_nat i + 1) / inject_Z N))
             (lerp (pos a) (pos b) (inject_Z (Z.of_nat i + 1) / inject_Z N)),
           s)).
Proof.
  cbv zeta. split; [apply expandLine_drop|].
  split; [apply expandLine_keep|]. split; [|split].
  - intros H0 H1. destruct (Qlt_le_dec (at_ b - at_ a) 2000) as [L|G].
    + exists (a, b, s). split; [apply expandLine_keep; assumption|].
      repeat split; reflexivity.
    + assert (E : at_ b - at_ a == 2000) by (apply Qle_antisym; assumption).
      rewrite expandLine_split by lra.
      rewrite (floor_span_2000 E).
      eexists. split; [reflexivity|].
      unfold lineEquiv, lineStart, lineEnd, lineSpeed, subLine, lerp.
      simpl. repeat split; try reflexivity; field.
  - intros H0 H1.
    assert (G : 2000 <= at_ b - at_ a) by lra.
    rewrite expandLine_split by assumption.
    split; [exact (floor_span_pos G)|].
    split; [|reflexivity].
    rewrite length_map, length_seq. reflexivity.
  - intros i. reflexivity.
Qed.

Lemma expandLine_cases_witness :
  expandLine (lineAt 700 700 50) = []
  /\ (exists e', expandLine (lineAt 0 2000 50) = [e']
                 /\ lineEquiv (lineAt 0 2000 50) e')
  /\ length (expandLine (lineAt 0 4500 50)) = 4%nat.
Proof.
  split; [|split].
  - destruct (expandLine_cases (mkFunAction 700 0) (mkFunAction 700 100)
                (Fin 50)) as (H & _).
    apply H. unfold Qle. simpl. lia.
  - destruct (expandLine_cases (mkFunAction 0 0) (mkFunAction 2000 100)
                (Fin 50)) as (_ & _ & H & _).
    apply H; [reflexivity|]. unfold Qle. simpl. lia.
  - destruct (expandLine_cases (mkFunAction 0 0) (mkFunAction 4500 100)
                (Fin 50)) as (_ & _ & _ & H & _).
    apply H; reflexivity.
Defined.

(** ** Interval merger *)

(** C5: the merger scans from left to right.  Two neighbouring lines
    [(a, b)] and [(c, d)] with [d.at - a.at < 1000] are replaced by the line
    [(a, d)] whose speed is the duration-weighted average
    [(ab * (b.at - a.at) + cd * (d.at - c.at))
     / ((b.at - a.at) + (d.at - c.at))], and the scan goes on from the merged
    line at the same index, against its new right neighbour; otherwise the
    index advances.  Stated for the loop at any index and for the whole
    array; a line of 400 ms and speed 20 merged with a line of 400 ms and
    speed 60 has speed 40. *)
Theorem mergeLines_cascade :
  (forall (a b c d : FunAction) (ab cd : num),
     mergeable (a, b, ab) (c, d, cd) = Qltb (at_ d - at_ a) 1000
     /\ mergedLine (a, b, ab) (c, d, cd)
        = (a, d,
           num_div
             (num_add (num_mul ab (Fin (at_ b - at_ a)))
                      (num_mul cd (Fin (at_ d - at_ c))))
             (Fin ((at_ b - at_ a) + (at_ d - at_ c)))))
  /\ (forall (pre : list Line) (x y : Line) (r : list Line),
        mergeLoop (length pre) (pre ++ x :: y :: r)
        = if mergeable x y
          then mergeLoop (length pre) (pre ++ mergedLine x y :: r)
          else mergeLoop (S (length pre)) (pre ++ x :: y :: r))
  /\ (forall (pre : list Line) (x : Line),
        mergeLoop (length pre) (pre ++ [x]) = pre ++ [x])
  /\ mergeLines [] = []
  /\ (forall x : Line, mergeLines [x] = [x])
  /\ (forall (x y : Line) (r : list Line),
        mergeLines (x :: y :: r)
        = if mergeable x y then mergeLines (mergedLine x y :: r)
          else x :: mergeLines (y :: r))
  /\ (exists speed : num,
        mergeLines [lineAt 0 400 20; lineAt 400 800 60]
        = [(mkFunAction 0 0, mkFunAction 800 100, speed)]
        /\ num_eqb speed (Fin 40) = true).
Proof.
  split; [intros; split; reflexivity|].
  split; [exact mergeLoop_at|].
  split; [exact mergeLoop_last|].
  split; [exact mergeLines_nil|].
  split; [intros x; apply mergeLines_scan|].
  split.
  - intros x y r. rewrite !mergeLines_scan. reflexivity.
  - eexists. split; vm_compute; reflexivity.
Qed.

(** ** Stop compressor *)

(** C6: the redundancy filter is idempotent.  For every array of entries,
    whatever the entries and the way their speed is read, filtering the
    filtered array gives the filtered array; in particular for the filter on
    lines and for the filter on stops. *)
Theorem redundancy_filter_idempotent :
  (forall (A : Type) (sp : A -> num) (l : list A),
     arrayFilter (keepEntry sp) (arrayFilter (keepEntry sp) l)
     = arrayFilter (keepEntry sp) l)
  /\ (forall stops : list Stop,
        filterStops (filterStops stops) = filterStops stops)
  /\ (forall lines : list Line,
        filterLines (filterLines lines) = filterLines lines).
Proof.
  assert (G : forall (A : Type) (sp : A -> num) (l : list A),
             arrayFilter (keepEntry sp) (arrayFilter (keepEntry sp) l)
             = arrayFilter (keepEntry sp) l).
  { intros A sp l. rewrite !arrayFilter_dedup. apply dedup_idempotent. }
  split; [exact G|]. split; intros l; apply G.
Qed.

(** C7: for every input the returned gradient-stop list has no three
    consecutive stops of the same speed, where two speeds are the same when
    [===] holds of them. *)
Theorem gradient_no_flat_triple (segs : list Line) (durationMs : Q) :
  flatTriple speed (toSvgBackgroundGradient segs durationMs) = false.
Proof.
  unfold toSvgBackgroundGradient, gradientStops. cbv zeta.
  rewrite (flatTriple_map stopSpeed speed (stopElement durationMs))
    by reflexivity.
  unfold filterStops. rewrite arrayFilter_dedup. apply dedup_no_triple.
Qed.

(** C8: for segments ordered ascending by time and a positive [durationMs]
    the offsets of the output stops are non-decreasing from the first stop to
    the last. *)
Theorem gradient_offsets_monotone (segs : list Line) (durationMs : Q) :
  ascending segs -> 0 < durationMs ->
  nondecreasing
    (map offsetFraction (toSvgBackgroundGradient segs durationMs)) = true.
Proof.
  intros Hasc Hd.
  unfold toSvgBackgroundGradient. rewrite map_map.
  change (fun x : Stop => offsetFraction (stopElement durationMs x))
    with (stopOffset durationMs).
  assert (B : exists lo hi,
             stopsBetween lo (gradientStops segs durationMs) hi).
  { unfold gradientStops. cbv zeta.
    unfold filterStops, filterLines. rewrite !arrayFilter_dedup.
    assert (C : exists lo hi, chainTo lo (mergeLines (expandLines segs)) hi).
    { destruct segs as [|e r].
      - exists 0, 0. simpl expandLines. rewrite mergeLines_nil.
        apply Qle_refl.
      - exists (at_ (lineStart e)), (at_ (lineEnd (last (e :: r) e))).
        apply mergeLines_chain, expandLines_chain, chain_chainTo.
        exact Hasc. }
    destruct C as (lo0 & hi0 & C).
    destruct (mergeLines (expandLines segs)) as [|first rest] eqn:L.
    - exists 0, 0. apply Qle_refl.
    - apply chainTo_chain in C.
      assert (C' : chain (at_ (lineStart first)) (first :: rest)).
      { destruct C as (_ & C2 & C3). split; [apply Qle_refl|].
        split; assumption. }
      apply chain_chainTo with (d := first) in C'.
      pose proof (@mids_between _ None _ _ C') as M.
      destruct (@boundary_between first rest durationMs _ M) as (lo & hi & S).
      exists lo, hi. apply dedup_stopsBetween. exact S. }
  destruct B as (lo & hi & B).
  exact (@offsets_nondecreasing durationMs _ Hd _ _ B).
Qed.

Lemma gradient_offsets_monotone_witness :
  nondecreasing
    (map offsetFraction
       (toSvgBackgroundGradient
          [lineAt 300 700 20; lineAt 700 4000 60; lineAt 5000 9000 10]
          10000)) = true.
Proof.
  apply gradient_offsets_monotone.
  - simpl. unfold Qle. simpl. lia.
  - reflexivity.
Defined.

(** ** Geometry mapper *)

(** C9: the stroke commands are returned sorted ascending by speed, whatever
    the time order of the lines (none of which has the speed [NaN]): the
    result is a rearrangement of the strokes of the lines in which every
    stroke has a speed [<=] the speed of every later one.  Lines of speeds
    10, 90, 5 in time order give strokes of speeds 5, 10, 90. *)
Theorem toSvgLines_paint_order (durationMs lineWidth width height : Q)
    (lines : list Line) :
  noNaN lines ->
  StronglySorted strokeLe
    (toSvgLines durationMs lineWidth width height lines)
  /\ Permutation
       (map (lineToStroke durationMs lineWidth width height) lines)
       (toSvgLines durationMs lineWidth width height lines)
  /\ map strokeSpeed
       (toSvgLines durationMs lineWidth width height
          [lineAt 0 1000 10; lineAt 1000 2000 90; lineAt 2000 3000 5])
     = [Fin 5; Fin 10; Fin 90].
Proof.
  intros H. unfold toSvgLines. split; [|split].
  - apply strokes_sorted.
    apply Sorted_StronglySorted; [exact speedLe_trans|].
    apply sortLines_sorted. exact H.
  - apply Permutation_map. apply sortLines_perm.
  - reflexivity.
Qed.

Lemma toSvgLines_paint_order_witness :
  StronglySorted strokeLe
    (toSvgLines 3000 (1 # 2) 690 52
       [lineAt 0 1000 10; lineAt 1000 2000 90; lineAt 2000 3000 5]).
Proof.
  apply (@toSvgLines_paint_order 3000 (1 # 2) 690 52
           [lineAt 0 1000 10; lineAt 1000 2000 90; lineAt 2000 3000 5]).
  repeat constructor.
Defined.

(** ** Redundancy filter, run by run *)

(** C10: in both filters the decision on an entry looks at its two
    neighbours in the array being filtered, kept or not ([dedup] hands on the
    preceding entry of that array).  So one pass turns every maximal run of
    entries of equal speed into its first and its last entry, a run of one
    entry into that entry, and the result has no three consecutive entries
    of equal speed. *)
Theorem redundancy_filter_runs (A : Type) (sp : A -> num) (l : list A) :
  arrayFilter (keepEntry sp) l = dedup sp None l
  /\ concat (runs sp l) = l
  /\ forallb (flatRun sp) (runs sp l) = true
  /\ separated sp (runs sp l) = true
  /\ arrayFilter (keepEntry sp) l = flat_map ends (runs sp l)
  /\ flatTriple sp (arrayFilter (keepEntry sp) l) = false
  /\ (forall lines : list Line,
        filterLines lines = flat_map ends (runs lineSpeed lines))
  /\ (forall stops : list Stop,
        filterStops stops = flat_map ends (runs stopSpeed stops)).
Proof.
  split; [apply arrayFilter_dedup|].
  split; [apply runs_concat|].
  split; [apply runs_flat|].
  split; [apply runs_separated|].
  split; [rewrite arrayFilter_dedup; apply dedup_runs|].
  split; [rewrite arrayFilter_dedup; apply dedup_no_triple|].
  split; intros x; unfold filterLines, filterStops;
    rewrite arrayFilter_dedup; apply dedup_runs.
Qed.

(** * Further properties of the code *)

(** ** Gradient synthesis *)

Lemma toFixed2_range (q : Q) : 0 <= q -> q <= 1 ->
  0 <= toFixed2 q /\ toFixed2 q <= 1.
Proof.
  intros H0 H1.
  pose proof (toFixed2_mono H0) as M0. pose proof (toFixed2_mono H1) as M1.
  change (toFixed2 0) with 0 in M0. change (toFixed2 1) with 1 in M1.
  split; assumption.
Qed.

Lemma roundQ_clamp01_range (q : Q) :
  0 <= roundQ (clamp01 q) /\ roundQ (clamp01 q) <= 1.
Proof.
  destruct (clamp01_range q) as (H0 & H1).
  rewrite roundQ_nonneg by exact H0. apply toFixed2_range; assumption.
Qed.

(** X1: Every offset written is a number between 0 and 1, except that it is
    [NaN] when [durationMs] is 0 and the stop is at time 0; no offset is
    ever infinite, whatever the segments and the duration. *)
Theorem gradient_offsets_clamped (segs : list Line) (durationMs : Q) :
  Forall (fun g : GradientStop =>
            match offsetFraction g with
            | Fin q => 0 <= q /\ q <= 1
            | NaN => durationMs == 0
            | PInf | NInf => False
            end)
         (toSvgBackgroundGradient segs durationMs).
Proof.
  unfold toSvgBackgroundGradient. apply Forall_map, Forall_forall.
  intros s _. cbn [offsetFraction stopElement].
  destruct (Qeq_dec durationMs 0) as [Z|NZ].
  - rewrite (stopOffset_zero s Z).
    destruct (Qsign (stopAt s)); [exact Z | split; lra | split; lra].
  - rewrite (stopOffset_nonzero s NZ). apply roundQ_clamp01_range.
Qed.

Lemma num_div_100 (v : Q) : num_div (Fin v) (Fin 100) = Fin (v / 100).
Proof. reflexivity. Qed.

(** X2: The [stop-opacity] attribute of a stop of finite, non-negative speed
    [v]: absent from 100 on, and otherwise a number between 0 and 1, both
    included.  The bound 1 is reached below 100: the speed 99.6 gives the
    opacity 1. *)
Theorem stop_opacity_range (durationMs : Q) (s : Stop) (v : Q) :
  stopSpeed s = Fin v -> 0 <= v ->
  (100 <= v -> opacity (stopElement durationMs s) = None)
  /\ (v < 100 ->
      exists o : Q,
        opacity (stopElement durationMs s) = Some (Fin o)
        /\ 0 <= o /\ o <= 1)
  /\ opacity (stopElement durationMs (mkStop 0 (Fin 99.6))) = Some (Fin 1).
Proof.
  intros E H0. unfold stopElement. cbn [opacity]. rewrite E.
  unfold num_geb, num_leb. split; [|split].
  - intros H. apply Qle_bool_iff in H. rewrite H. reflexivity.
  - intros H. apply Qle_bool_gt in H. rewrite H.
    rewrite num_div_100. cbn [round].
    exists (roundQ (v / 100)). split; [reflexivity|].
    assert (R0 : 0 <= v / 100) by (apply Qle_shift_div_l; lra).
    assert (R1 : v / 100 <= 1).
    { apply Qle_shift_div_r; [reflexivity|]. apply Qle_bool_gt in H. lra. }
    rewrite roundQ_nonneg by exact R0. apply toFixed2_range; assumption.
  - reflexivity.
Qed.

Lemma stop_opacity_range_witness :
  exists o : Q,
    opacity (stopElement 10000 (mkStop 500 (Fin 50))) = Some (Fin o)
    /\ 0 <= o /\ o <= 1.
Proof.
  destruct (@stop_opacity_range 10000 (mkStop 500 (Fin 50)) 50 eq_refl)
    as (_ & H & _).
  - unfold Qle. simpl. lia.
  - apply H. reflexivity.
Defined.

Lemma expandLines_degenerate (segs : list Line) :
  Forall (fun e => lineSpan e <= 0) segs -> expandLines segs = [].
Proof.
  induction 1 as [|e r He Hr IH]; [reflexivity|].
  change (expandLines (e :: r)) with (expandLine e ++ expandLines r).
  rewrite IH. destruct e as [[a b] s].
  rewrite (expandLine_drop a b s He). reflexivity.
Qed.

(** X3: When no segment has a positive span (in particular for no segment at
    all) the gradient has no stop: nothing is drawn, no boundary stop is
    added. *)
Theorem gradient_of_degenerate_segments (segs : list Line) (durationMs : Q) :
  Forall (fun e => lineSpan e <= 0) segs ->
  toSvgBackgroundGradient segs durationMs = [].
Proof.
  intros H. unfold toSvgBackgroundGradient, gradientStops.
  rewrite (expandLines_degenerate H), mergeLines_nil. reflexivity.
Qed.

Lemma gradient_of_degenerate_segments_witness :
  toSvgBackgroundGradient [lineAt 700 700 50; lineAt 900 300 20] 10000 = [].
Proof.
  apply gradient_of_degenerate_segments.
  repeat constructor; unfold lineSpan, Qle; simpl; lia.
Defined.

Lemma expandLine_nonempty (e : Line) :
  0 < lineSpan e -> lineSpan e < 2147483648500 -> expandLine e <> [].
Proof.
  destruct e as [[a b] s]. unfold lineSpan, lineStart, lineEnd.
  cbn [fst snd]. intros H0 H1.
  destruct (Qlt_le_dec (at_ b - at_ a) 2000) as [L|G].
  - rewrite expandLine_keep by assumption. discriminate.
  - rewrite expandLine_split by assumption.
    pose proof (floor_span_pos G) as P.
    destruct (Z.to_nat (Qfloor ((at_ b - at_ a - 500) / 1000))) eqn:E;
      [lia | discriminate].
Qed.

Lemma expandLines_nonempty (segs : list Line) (e : Line) :
  In e segs -> expandLine e <> [] -> expandLines segs <> [].
Proof.
  intros Hin Hne E. apply Hne.
  unfold expandLines in E.
  destruct (expandLine e) as [|x r] eqn:X; [reflexivity|].
  assert (I : In x (flat_map expandLine segs)).
  { apply in_flat_map. exists e. split; [exact Hin|]. rewrite X. left.
    reflexivity. }
  rewrite E in I. destruct I.
Qed.

Lemma mergeScan_nonempty (rest : list Line) :
  forall cur : Line, mergeScan cur rest <> [].
Proof.
  induction rest as [|next rest IH]; intros cur; simpl; [discriminate|].
  destruct (mergeable cur next); [apply IH | discriminate].
Qed.

Lemma mergeScan_length (rest : list Line) :
  forall cur : Line, (length (mergeScan cur rest) <= S (length rest))%nat.
Proof.
  induction rest as [|next rest IH]; intros cur; simpl; [lia|].
  destruct (mergeable cur next); [specialize (IH (mergedLine cur next))
                                 |specialize (IH next)]; simpl; lia.
Qed.

Lemma mergeLines_length (lines : list Line) :
  (length (mergeLines lines) <= length lines)%nat.
Proof.
  destruct lines as [|cur rest].
  - rewrite mergeLines_nil. apply Nat.le_refl.
  - rewrite mergeLines_scan. apply mergeScan_length.
Qed.

Lemma dedup_length (A : Type) (sp : A -> num) (l : list A) :
  forall prev, (length (dedup sp prev l) <= length l)%nat.
Proof.
  induction l as [|e r IH]; intros prev; simpl; [lia|].
  specialize (IH (Some e)).
  destruct (keepBetween sp prev e (hd_error r)); simpl; lia.
Qed.

Lemma addBoundaryStops_length (lines : list Line) (d : Q) (mids : list Stop) :
  (length (addBoundaryStops lines d mids) <= length mids + 4)%nat.
Proof.
  unfold addBoundaryStops. destruct lines as [|first rest]; [lia|].
  destruct (Qltb 100 (at_ (lineStart first)));
    destruct (Qltb (at_ (lineEnd (last (first :: rest) first))) (d - 100));
    rewrite ?length_app; simpl; rewrite ?length_app; simpl; lia.
Qed.

Lemma gradientStops_shape (segs : list Line) (d : Q)
    (first : Line) (rest : list Line) :
  mergeLines (expandLines segs) = first :: rest ->
  exists kept : list Stop,
    gradientStops segs d
    = firstStop first :: kept ++ [lastStop (last rest first) d].
Proof.
  intros E. unfold gradientStops. rewrite E. cbv zeta.
  destruct (addBoundaryStops_shape first rest d
              (map midStop (filterLines (first :: rest)))) as (mid & S).
  rewrite S. unfold filterStops. rewrite arrayFilter_dedup.
  cbn [dedup keepBetween].
  destruct (dedup_snoc stopSpeed mid (Some (firstStop first))
              (lastStop (last rest first) d)) as (kept & K).
  rewrite K. exists kept. reflexivity.
Qed.

(** X4: As soon as one segment has a positive span (below the 32-bit limit of
    the expander) the gradient has at least two stops; and it never has
    more than four stops beyond the number of lines left by the merger,
    which is at most the number of lines the expander produced. *)
Theorem gradient_stop_count (segs : list Line) (durationMs : Q) (e : Line) :
  In e segs -> 0 < lineSpan e -> lineSpan e < 2147483648500 ->
  (2 <= length (toSvgBackgroundGradient segs durationMs))%nat
  /\ (length (toSvgBackgroundGradient segs durationMs)
      <= length (mergeLines (expandLines segs)) + 4)%nat
  /\ (length (mergeLines (expandLines segs))
      <= length (expandLines segs))%nat.
Proof.
  intros Hin H0 H1. unfold toSvgBackgroundGradient. rewrite length_map.
  split; [|split].
  - assert (NE : expandLines segs <> []).
    { eapply expandLines_nonempty; [exact Hin|].
      apply expandLine_nonempty; assumption. }
    destruct (expandLines segs) as [|cur more] eqn:X; [congruence|].
    destruct (mergeLines (cur :: more)) as [|first rest] eqn:M.
    + rewrite mergeLines_scan in M. exfalso.
      exact (@mergeScan_nonempty more cur M).
    + rewrite <- X in M.
      destruct (@gradientStops_shape segs durationMs _ _ M) as (kept & K).
      rewrite K. simpl. rewrite length_app. simpl. lia.
  - unfold gradientStops. cbv zeta.
    unfold filterStops, filterLines. rewrite !arrayFilter_dedup.
    eapply Nat.le_trans; [apply dedup_length|].
    eapply Nat.le_trans; [apply addBoundaryStops_length|].
    rewrite length_map.
    pose proof (dedup_length lineSpeed (mergeLines (expandLines segs)) None).
    lia.
  - apply mergeLines_length.
Qed.

Lemma gradient_stop_count_witness :
  (2 <= length (toSvgBackgroundGradient
                  [lineAt 700 700 50; lineAt 900 1300 20] 10000))%nat.
Proof.
  apply (@gradient_stop_count [lineAt 700 700 50; lineAt 900 1300 20] 10000
           (lineAt 900 1300 20)).
  - right. left. reflexivity.
  - reflexivity.
  - reflexivity.
Defined.

(** ** Expander *)

Lemma inject_Z_pos (N : Z) : (0 < N)%Z -> 0 < inject_Z N.
Proof. intros H. change 0 with (inject_Z 0). rewrite <- Zlt_Qlt. exact H. Qed.

Lemma subLine_next (a b : FunAction) (s : num) (N : Z) (i : nat) :
  lineEnd (subLine a b s N i) = lineStart (subLine a b s N (S i)).
Proof.
  unfold subLine, lineEnd, lineStart. cbn [fst snd].
  rewrite Nat2Z.inj_succ. unfold Z.succ. reflexivity.
Qed.

Lemma subLines_contiguous (a b : FunAction) (s : num) (N : Z) (m : nat) :
  forall k : nat, contiguous (map (subLine a b s N) (seq k m)).
Proof.
  induction m as [|m IH]; intros k; [exact I|].
  destruct m as [|m']; [exact I|].
  change (contiguous (subLine a b s N k
                      :: map (subLine a b s N) (seq (S k) (S m')))).
  specialize (IH (S k)).
  change (map (subLine a b s N) (seq (S k) (S m')))
    with (subLine a b s N (S k) :: map (subLine a b s N) (seq (S (S k)) m'))
    in *.
  split; [apply subLine_next | exact IH].
Qed.

Lemma subLine_span (a b : FunAction) (s : num) (N : Z) (i : nat) :
  (0 < N)%Z ->
  lineSpan (subLine a b s N i) == (at_ b - at_ a) / inject_Z N.
Proof.
  intros H. unfold lineSpan, subLine, lineEnd, lineStart, lerp.
  cbn [fst snd at_]. rewrite inject_Z_plus.
  change (inject_Z 1) with 1. field.
  intros E. pose proof (inject_Z_pos H) as P. rewrite E in P.
  exact (Qlt_irrefl 0 P).
Qed.

(** Between 1000 and 2500 ms: the length of a piece. *)
Lemma piece_length_bounds (x : Q) (N : Z) :
  (1 <= N)%Z -> inject_Z N <= (x - 500) / 1000 ->
  (x - 500) / 1000 < inject_Z (N + 1) ->
  1000 < x / inject_Z N /\ x / inject_Z N < 2500.
Proof.
  intros HN Lo Hi.
  assert (P : 0 < inject_Z N) by (apply inject_Z_pos; lia).
  assert (P1 : 1 <= inject_Z N).
  { change 1 with (inject_Z 1). rewrite <- Zle_Qle. exact HN. }
  rewrite inject_Z_plus in Hi. change (inject_Z 1) with 1 in Hi.
  assert (E : (x - 500) / 1000 * 1000 == x - 500) by field.
  assert (Lo' : inject_Z N * 1000 <= x - 500).
  { rewrite <- E. apply Qmult_le_compat_r; [exact Lo | discriminate]. }
  assert (Hi' : x - 500 < (inject_Z N + 1) * 1000).
  { rewrite <- E. apply Qmult_lt_compat_r; [reflexivity | exact Hi]. }
  split.
  - apply Qlt_shift_div_l; [exact P | lra].
  - apply Qlt_shift_div_r; [exact P | lra].
Qed.

Lemma last_map_seq (A : Type) (f : nat -> A) (m : nat) :
  forall k : nat, last (map f (seq (S k) m)) (f k) = f (k + m)%nat.
Proof.
  induction m as [|m IH]; intros k.
  - simpl. rewrite Nat.add_0_r. reflexivity.
  - cbn [seq map]. rewrite last_cons, IH. f_equal. lia.
Qed.

(** X5: A segment of 2000 ms or more (below the 32-bit limit) is cut into
    pieces that tile it: the first starts where the segment starts, the last
    ends where it ends, each piece ends at the keyframe the next starts at,
    and all pieces have the same length [span / N], more than 1000 ms and
    less than 2500 ms, and the speed of the segment. *)
Theorem expandLine_tiles (a b : FunAction) (s : num) :
  2000 <= at_ b - at_ a -> at_ b - at_ a < 2147483648500 ->
  contiguous (expandLine (a, b, s))
  /\ (exists (first : Line) (rest : list Line),
        expandLine (a, b, s) = first :: rest
        /\ at_ (lineStart first) == at_ a
        /\ pos (lineStart first) == pos a
        /\ at_ (lineEnd (last rest first)) == at_ b
        /\ pos (lineEnd (last rest first)) == pos b)
  /\ Forall (fun x : Line =>
               lineSpan x
               == (at_ b - at_ a)
                  / inject_Z (Qfloor ((at_ b - at_ a - 500) / 1000))
               /\ 1000 < lineSpan x /\ lineSpan x < 2500
               /\ lineSpeed x = s)
            (expandLine (a, b, s)).
Proof.
  intros H0 H1. rewrite expandLine_split by assumption.
  set (N := Qfloor ((at_ b - at_ a - 500) / 1000)).
  assert (HN : (1 <= N)%Z) by (apply floor_span_pos; exact H0).
  assert (HN0 : (0 < N)%Z) by lia.
  split; [apply subLines_contiguous|]. split.
  - destruct (Z.to_nat N) as [|m] eqn:En; [lia|].
    exists (subLine a b s N 0), (map (subLine a b s N) (seq 1 m)).
    split; [reflexivity|].
    rewrite last_map_seq. cbn [Nat.add].
    unfold subLine, lineStart, lineEnd. cbn [fst snd at_ pos].
    replace (Z.of_nat m + 1)%Z with N by lia.
    rewrite !lerp_start, !lerp_end by exact HN0.
    repeat split; reflexivity.
  - apply Forall_forall. intros x Hin.
    apply in_map_iff in Hin. destruct Hin as (i & <- & _).
    pose proof (subLine_span a b s i HN0) as E.
    destruct (@piece_length_bounds (at_ b - at_ a) N HN) as (B0 & B1).
    + apply Qfloor_le.
    + apply Qlt_floor.
    + rewrite E. repeat split; assumption || reflexivity.
Qed.

Lemma expandLine_tiles_witness :
  contiguous (expandLine (lineAt 0 4500 50)).
Proof.
  apply (@expandLine_tiles (mkFunAction 0 0) (mkFunAction 4500 100) (Fin 50)).
  - unfold Qle. simpl. lia.
  - reflexivity.
Defined.

Lemma toInt32_le_floor (q : Q) : 0 <= q -> (toInt32 q <= Qfloor q)%Z.
Proof.
  intros H0.
  assert (F0 : (0 <= Qfloor q)%Z).
  { change 0%Z with (Qfloor 0). apply Qfloor_resp_le. exact H0. }
  unfold toInt32.
  assert (E : Z.quot (Qnum q) (Zpos (Qden q)) = Qfloor q).
  { destruct q as [n d]. simpl.
    apply Z.quot_div_nonneg; [|reflexivity].
    unfold Qle in H0. simpl in H0. lia. }
  rewrite E. change (2 ^ 31)%Z with 2147483648%Z.
  change (2 ^ 32)%Z with 4294967296%Z.
  pose proof (Z.mod_le (Qfloor q + 2147483648) 4294967296).
  lia.
Qed.

Lemma subLines_no_short_pair (a b : FunAction) (s : num) (N : Z) (m : nat) :
  (0 < N)%Z -> inject_Z N * 1000 <= at_ b - at_ a - 500 ->
  forall k : nat, shortPair (map (subLine a b s N) (seq k m)) = false.
Proof.
  intros HN Hb. induction m as [|m IH]; intros k; [reflexivity|].
  destruct m as [|m']; [reflexivity|].
  specialize (IH (S k)).
  change (shortPair (map (subLine a b s N) (seq k (S (S m')))))
    with (mergeable (subLine a b s N k) (subLine a b s N (S k))
          || shortPair (map (subLine a b s N) (seq (S k) (S m')))).
  rewrite IH, orb_false_r. rewrite mergeable_times. apply Qltb_ge.
  pose proof (inject_Z_pos HN) as P.
  assert (E : at_ (lineEnd (subLine a b s N (S k)))
              - at_ (lineStart (subLine a b s N k))
              == (at_ b - at_ a) * 2 / inject_Z N).
  { unfold subLine, lineEnd, lineStart, lerp. cbn [fst snd at_].
    rewrite Nat2Z.inj_succ. unfold Z.succ. rewrite !inject_Z_plus.
    change (inject_Z 1) with 1. field.
    intros Z. rewrite Z in P. exact (Qlt_irrefl 0 P). }
  rewrite E. apply Qle_shift_div_l; [exact P | lra].
Qed.

Lemma expandLine_no_short_pair (e : Line) : shortPair (expandLine e) = false.
Proof.
  destruct e as [[a b] s]. unfold expandLine.
  destruct (Qle_bool (at_ b - at_ a) 0); [reflexivity|].
  destruct (Qltb (at_ b - at_ a) 2000) eqn:L; [reflexivity|].
  apply Qltb_ge in L. cbv zeta.
  set (q := (at_ b - at_ a - 500) / 1000).
  assert (Q0 : 0 <= q) by (apply Qle_shift_div_l; [reflexivity | lra]).
  destruct (Z_lt_le_dec 0 (toInt32 q)) as [P|NP].
  - apply subLines_no_short_pair; [exact P|].
    assert (B : inject_Z (toInt32 q) <= q).
    { apply Qle_trans with (inject_Z (Qfloor q)); [|apply Qfloor_le].
      rewrite <- Zle_Qle. apply toInt32_le_floor. exact Q0. }
    assert (E : q * 1000 == at_ b - at_ a - 500) by (unfold q; field).
    rewrite <- E. apply Qmult_le_compat_r; [exact B | discriminate].
  - replace (Z.to_nat (toInt32 q)) with 0%nat by lia. reflexivity.
Qed.

Lemma mergeScan_fixed (rest : list Line) : forall cur : Line,
  shortPair (cur :: rest) = false -> mergeScan cur rest = cur :: rest.
Proof.
  induction rest as [|next rest IH]; intros cur H; [reflexivity|].
  change (shortPair (cur :: next :: rest))
    with (mergeable cur next || shortPair (next :: rest)) in H.
  apply orb_false_iff in H as (M & H).
  cbn [mergeScan]. rewrite M, (IH next H). reflexivity.
Qed.

Lemma mergeLines_fixed (lines : list Line) :
  shortPair lines = false -> mergeLines lines = lines.
Proof.
  destruct lines as [|cur rest]; intros H.
  - apply mergeLines_nil.
  - rewrite mergeLines_scan. apply mergeScan_fixed. exact H.
Qed.

(** X6: The merger never fuses again the pieces one segment was cut into: on
    the lines the expander makes of a single segment, whatever the segment,
    the merger changes nothing. *)
Theorem expandLine_not_remerged (e : Line) :
  mergeLines (expandLine e) = expandLine e.
Proof. apply mergeLines_fixed, expandLine_no_short_pair. Qed.

(** ** Merger *)

Lemma last_lineEnd (r : list Line) (x y : Line) :
  lineEnd x = lineEnd y -> lineEnd (last r x) = lineEnd (last r y).
Proof.
  intros H. destruct r as [|z r]; [exact H|].
  rewrite !last_cons. reflexivity.
Qed.

Lemma mergeScan_ends (rest : list Line) : forall cur : Line,
  exists (h : Line) (t : list Line),
    mergeScan cur rest = h :: t
    /\ lineStart h = lineStart cur
    /\ lineEnd (last t h) = lineEnd (last rest cur).
Proof.
  induction rest as [|next rest IH]; intros cur.
  - exists cur, []. repeat split.
  - cbn [mergeScan]. destruct (mergeable cur next).
    + destruct (IH (mergedLine cur next)) as (h & t & E & S & L).
      destruct (mergedLine_ends cur next) as (Es & Ee).
      exists h, t. split; [exact E|]. split; [congruence|].
      rewrite L, last_cons. apply last_lineEnd. exact Ee.
    + destruct (IH next) as (h & t & E & S & L).
      exists cur, (h :: t). rewrite E. split; [reflexivity|].
      split; [reflexivity|]. rewrite !last_cons. exact L.
Qed.

(** X7: The merger keeps the time range and never adds a line: the result
    starts at the start keyframe of the first line, ends at the end keyframe
    of the last line, and is no longer than the input. *)
Theorem mergeLines_keeps_range (cur : Line) (rest : list Line) :
  exists (h : Line) (t : list Line),
    mergeLines (cur :: rest) = h :: t
    /\ lineStart h = lineStart cur
    /\ lineEnd (last t h) = lineEnd (last rest cur)
    /\ (length t <= length rest)%nat.
Proof.
  rewrite mergeLines_scan.
  destruct (mergeScan_ends rest cur) as (h & t & E & S & L).
  exists h, t. repeat split; try assumption.
  pose proof (mergeScan_length rest cur) as B. rewrite E in B.
  simpl in B. lia.
Qed.








Lemma chain_ascending (lo : Q) (l : list Line) : chain lo l -> ascending l.
Proof.
  destruct l as [|e r]; [exact (fun _ => I)|].
  intros (_ & H1 & H2). split; [apply Qle_refl|]. split; assumption.
Qed.

(** X10: Lines in time order stay in time order through the expander and the
    merger; after the merger no line can be merged with its right neighbour
    any more, so that merging once more changes nothing. *)
Theorem time_order_preserved (segs : list Line) :
  ascending segs ->
  ascending (expandLines segs)
  /\ ascending (mergeLines (expandLines segs))
  /\ shortPair (mergeLines (expandLines segs)) = false
  /\ mergeLines (mergeLines (expandLines segs))
     = mergeLines (expandLines segs).
Proof.
  intros H.
  assert (C : exists lo hi, chainTo lo (expandLines segs) hi).
  { destruct segs as [|e r].
    - exists 0, 0. apply Qle_refl.
    - exists (at_ (lineStart e)), (at_ (lineEnd (last (e :: r) e))).
      apply expandLines_chain, chain_chainTo. exact H. }
  destruct C as (lo & hi & C).
  assert (A1 : ascending (expandLines segs)).
  { eapply chain_ascending, chainTo_chain. exact C. }
  assert (S : shortPair (mergeLines (expandLines segs)) = false).
  { destruct (expandLines segs) as [|cur rest].
    - rewrite mergeLines_nil. reflexivity.
    - rewrite mergeLines_scan.
      destruct (mergeScan_no_short_pair C) as (h & t & E & _ & _ & P).
      rewrite E. exact P. }
  split; [exact A1|]. split; [|split].
  - eapply chain_ascending, chainTo_chain, mergeLines_chain. exact C.
  - exact S.
  - apply mergeLines_fixed. exact S.
Qed.

Lemma time_order_preserved_witness :
  mergeLines (mergeLines (expandLines [lineAt 0 400 20; lineAt 400 800 60;
                                        lineAt 800 5000 10]))
  = mergeLines (expandLines [lineAt 0 400 20; lineAt 400 800 60;
                             lineAt 800 5000 10]).
Proof.
  apply time_order_preserved.
  simpl. unfold Qle. simpl. lia.
Defined.

(** ** Redundancy filter *)

Lemma dedup_subseq (A : Type) (sp : A -> num) (l : list A) :
  forall prev : option A, Subseq (dedup sp prev l) l.
Proof.
  induction l as [|e r IH]; intros prev; simpl; [constructor|].
  destruct (keepBetween sp prev e (hd_error r)); constructor; apply IH.
Qed.

(** X11: The filter only leaves entries out: what it returns is the array with
    some entries removed, the others in their order; the first and the last
    entry are always kept, so that a non-empty array never becomes empty. *)
Theorem redundancy_filter_keeps_ends (A : Type) (sp : A -> num) (l : list A) :
  Subseq (arrayFilter (keepEntry sp) l) l
  /\ hd_error (arrayFilter (keepEntry sp) l) = hd_error l
  /\ lastOpt (arrayFilter (keepEntry sp) l) = lastOpt l.
Proof.
  rewrite arrayFilter_dedup. split; [apply dedup_subseq|]. split.
  - destruct l as [|x r]; reflexivity.
  - destruct l as [|x r]; [reflexivity|].
    destruct (@exists_last A (x :: r)) as (l' & y & E); [discriminate|].
    rewrite E. destruct (dedup_snoc sp l' None y) as (kept & K).
    rewrite K, !lastOpt_snoc. reflexivity.
Qed.

(** ** Geometry mapper *)

Lemma roundQ_mono (x y : Q) : x <= y -> roundQ x <= roundQ y.
Proof.
  intros H. unfold roundQ.
  destruct (Qltb x 0) eqn:X; destruct (Qltb y 0) eqn:Y;
    try apply Qltb_lt in X; try apply Qltb_lt in Y;
    try apply Qltb_ge in X; try apply Qltb_ge in Y.
  - rewrite !Qred_correct. apply Qopp_le_compat. apply toFixed2_mono. lra.
  - rewrite Qred_correct.
    assert (A : 0 <= toFixed2 (- x)).
    { change 0 with (toFixed2 0) at 1. apply toFixed2_mono. lra. }
    assert (B : 0 <= toFixed2 y).
    { change 0 with (toFixed2 0) at 1. apply toFixed2_mono. exact Y. }
    lra.
  - lra.
  - apply toFixed2_mono. exact H.
Qed.

Lemma strokeX_value (d lw w : Q) (a : FunAction) :
  ~ d == 0 ->
  strokeX d lw w a = Fin (roundQ (at_ a / d * (w - 2 * lw) + lw)).
Proof.
  intros H. unfold strokeX, num_div.
  assert (S : Qsign d <> Eq).
  { unfold Qsign. intros E. apply Z.compare_eq_iff in E.
    apply H. unfold Qeq. simpl. lia. }
  destruct (Qsign d); [congruence | reflexivity | reflexivity].
Qed.

Lemma strokeY_value (lw h : Q) (a : FunAction) :
  strokeY lw h a = Fin (roundQ ((100 - pos a) * (h - 2 * lw) / 100 + lw)).
Proof. reflexivity. Qed.

Lemma strokeX_mono (d lw w : Q) (a b : FunAction) :
  0 < d -> 2 * lw <= w -> at_ a <= at_ b ->
  num_leb (strokeX d lw w a) (strokeX d lw w b) = true.
Proof.
  intros Hd Hw H.
  assert (Dn : ~ d == 0) by lra.
  rewrite !strokeX_value by exact Dn. cbn [num_leb].
  apply Qle_bool_iff, roundQ_mono.
  assert (T : at_ a / d <= at_ b / d).
  { apply Qmult_le_compat_r; [exact H|]. apply Qinv_le_0_compat. lra. }
  nra.
Qed.

Lemma strokeY_anti (lw h : Q) (a b : FunAction) :
  2 * lw <= h -> pos a <= pos b ->
  num_leb (strokeY lw h b) (strokeY lw h a) = true.
Proof.
  intros Hh H. rewrite !strokeY_value. cbn [num_leb].
  apply Qle_bool_iff, roundQ_mono.
  apply Qplus_le_l. apply Qmult_le_compat_r; [nra|]. discriminate.
Qed.

Lemma strokeX_between (d lw w : Q) (a : FunAction) :
  0 < d -> 2 * lw <= w -> 0 <= at_ a -> at_ a <= d ->
  coordBetween (strokeX d lw w (mkFunAction 0 100))
               (strokeX d lw w (mkFunAction d 0))
               (strokeX d lw w a).
Proof.
  intros Hd Hw H0 H1.
  split; apply strokeX_mono; assumption.
Qed.

Lemma strokeY_between (lw h : Q) (d : Q) (a : FunAction) :
  2 * lw <= h -> 0 <= pos a -> pos a <= 100 ->
  coordBetween (strokeY lw h (mkFunAction 0 100))
               (strokeY lw h (mkFunAction d 0))
               (strokeY lw h a).
Proof.
  intros Hh H0 H1.
  split; apply strokeY_anti; assumption.
Qed.

(** X12: For a positive duration and a drawing area at least two line widths
    wide and high, the strokes of lines within the duration and within the
    positions 0 to 100 have all their coordinates inside the box of the
    drawing area: no further left or higher than the point drawn for time 0
    and position 100, no further right or lower than the point drawn for
    the time [durationMs] and position 0. *)
Theorem toSvgLines_inside (durationMs lineWidth width height : Q)
    (lines : list Line) :
  0 < durationMs -> 2 * lineWidth <= width -> 2 * lineWidth <= height ->
  Forall (lineWithin durationMs) lines ->
  Forall (strokeInside durationMs lineWidth width height)
         (toSvgLines durationMs lineWidth width height lines).
Proof.
  intros Hd Hw Hh H. unfold toSvgLines. apply Forall_map.
  apply (Permutation_Forall (sortLines_perm lines)).
  apply Forall_forall. intros e He.
  rewrite Forall_forall in H. destruct (H e He) as (Ha & Hb).
  destruct e as [[a b] s]. unfold lineStart, lineEnd in *. cbn [fst snd] in *.
  destruct Ha as (A0 & A1 & A2 & A3), Hb as (B0 & B1 & B2 & B3).
  unfold strokeInside, lineToStroke. cbv zeta. cbn [fromX fromY toX toY].
  repeat split;
    first [ apply strokeX_mono; assumption
          | apply strokeY_anti; assumption ].
Qed.

Lemma toSvgLines_inside_witness :
  Forall (strokeInside 3000 (1 # 2) 690 32)
         (toSvgLines 3000 (1 # 2) 690 32
            [lineAt 0 1000 10; lineAt 1000 2000 90; lineAt 2000 3000 5]).
Proof.
  apply toSvgLines_inside.
  - reflexivity.
  - unfold Qle. simpl. lia.
  - unfold Qle. simpl. lia.
  - repeat constructor; unfold Qle; simpl; lia.
Defined.

(** X13: Orientation of the axes, for a positive [durationMs] and a drawing
    area whose width and height are at least two line widths: of two
    keyframes the later one is drawn no further left, and the one of higher
    position is drawn no lower; the time 0 and the position 100 are drawn
    at [lineWidth] rounded to two decimals. *)
Theorem stroke_axes (durationMs lineWidth width height : Q) :
  0 < durationMs -> 2 * lineWidth <= width -> 2 * lineWidth <= height ->
  (forall a b : FunAction,
     at_ a <= at_ b ->
     num_leb (strokeX durationMs lineWidth width a)
             (strokeX durationMs lineWidth width b) = true)
  /\ (forall a b : FunAction,
        pos a <= pos b ->
        num_leb (strokeY lineWidth height b)
                (strokeY lineWidth height a) = true)
  /\ (forall a : FunAction,
        at_ a == 0 ->
        strokeX durationMs lineWidth width a = Fin (roundQ lineWidth))
  /\ (forall a : FunAction,
        pos a == 100 ->
        strokeY lineWidth height a = Fin (roundQ lineWidth)).
Proof.
  intros Hd Hw Hh.
  assert (Dn : ~ durationMs == 0) by lra.
  split; [|split; [|split]].
  - intros a b H. apply strokeX_mono; assumption.
  - intros a b H. apply strokeY_anti; assumption.
  - intros a E. rewrite strokeX_value by exact Dn. f_equal.
    apply roundQ_comp. rewrite E. field. exact Dn.
  - intros a E. rewrite strokeY_value. f_equal.
    apply roundQ_comp. rewrite E. field.
Qed.

Lemma stroke_axes_witness :
  strokeY (1 # 2) 32 (mkFunAction 0 100) = Fin (roundQ (1 # 2)).
Proof.
  destruct (@stroke_axes 3000 (1 # 2) 690 32) as (_ & _ & _ & H).
  - reflexivity.
  - unfold Qle. simpl. lia.
  - unfold Qle. simpl. lia.
  - apply H. reflexivity.
Defined.

Lemma equal_speeds_not_swapped (x y v : num) :
  num_eqb x v = true -> num_eqb y v = true ->
  num_ltb (Fin 0) (num_sub x y) = false.
Proof.
  destruct x as [a| | |], y as [b| | |], v as [c| | |]; simpl;
    try discriminate; try reflexivity.
  intros H1 H2. apply Qeq_bool_iff in H1, H2. apply Qltb_ge. lra.
Qed.

Lemma insertLine_filter (v : num) (x : Line) (l : list Line) :
  filter (fun e => num_eqb (lineSpeed e) v) (insertLine x l)
  = filter (fun e => num_eqb (lineSpeed e) v) (x :: l).
Proof.
  induction l as [|y r IH]; [reflexivity|].
  cbn [insertLine].
  destruct (num_ltb (Fin 0) (compareSpeed x y)) eqn:C; [|reflexivity].
  cbn [filter] in *. rewrite IH.
  destruct (num_eqb (lineSpeed x) v) eqn:X;
    destruct (num_eqb (lineSpeed y) v) eqn:Y; try reflexivity.
  unfold compareSpeed in C.
  rewrite (equal_speeds_not_swapped _ _ _ X Y) in C. discriminate.
Qed.

Lemma sortLines_filter (v : num) (l : list Line) :
  filter (fun e => num_eqb (lineSpeed e) v) (sortLines l)
  = filter (fun e => num_eqb (lineSpeed e) v) l.
Proof.
  induction l as [|x r IH]; [reflexivity|].
  cbn [sortLines fold_right]. fold (sortLines r).
  rewrite insertLine_filter. cbn [filter]. rewrite IH. reflexivity.
Qed.

Lemma filter_map_commute (A B : Type) (f : A -> B) (p : B -> bool)
    (l : list A) :
  filter p (map f l) = map f (filter (fun x => p (f x)) l).
Proof.
  induction l as [|x r IH]; [reflexivity|].
  simpl. destruct (p (f x)); simpl; rewrite IH; reflexivity.
Qed.

(** X14: The sort is stable: when no speed is NaN, the strokes of any one
    speed come out in the order of their lines in the input. *)
Theorem toSvgLines_stable (durationMs lineWidth width height : Q)
    (v : num) (lines : list Line) :
  noNaN lines ->
  filter (fun c => num_eqb (strokeSpeed c) v)
         (toSvgLines durationMs lineWidth width height lines)
  = map (lineToStroke durationMs lineWidth width height)
        (filter (fun e => num_eqb (lineSpeed e) v) lines).
Proof.
  intros _. unfold toSvgLines. rewrite filter_map_commute.
  rewrite <- (sortLines_filter v lines). f_equal.
  apply filter_ext. intros e. rewrite strokeSpeed_lineToStroke. reflexivity.
Qed.

Lemma toSvgLines_stable_witness :
  filter (fun c => num_eqb (strokeSpeed c) (Fin 10))
         (toSvgLines 3000 (1 # 2) 690 32
            [lineAt 0 1000 10; lineAt 1000 2000 90; lineAt 2000 3000 10])
  = map (lineToStroke 3000 (1 # 2) 690 32)
        [lineAt 0 1000 10; lineAt 2000 3000 10].
Proof.
  apply (@toSvgLines_stable 3000 (1 # 2) 690 32 (Fin 10)
           [lineAt 0 1000 10; lineAt 1000 2000 90; lineAt 2000 3000 10]).
  repeat constructor; discriminate.
Defined.

(** ** Text escaping *)

(** The seven cases of the callback, with the entities spelled out in code
    units. *)
Lemma escapeUnit_cases (c : N) :
  (c = 38%N /\ escapeUnit c = [38; 97; 109; 112; 59]%N)
  \/ (c = 60%N /\ escapeUnit c = [38; 108; 116; 59]%N)
  \/ (c = 62%N /\ escapeUnit c = [38; 103; 116; 59]%N)
  \/ (c = 34%N /\ escapeUnit c = [38; 113; 117; 111; 116; 59]%N)
  \/ (c = 39%N /\ escapeUnit c = [38; 35; 51; 57; 59]%N)
  \/ (c = 47%N /\ escapeUnit c = [38; 35; 120; 50; 70; 59]%N)
  \/ (isSpecial c = false /\ escapeUnit c = [c]).
Proof.
  unfold escapeUnit, isSpecial.
  destruct (N.eqb_spec c 38); [subst; left; split; reflexivity|right].
  destruct (N.eqb_spec c 60); [subst; left; split; reflexivity|right].
  destruct (N.eqb_spec c 62); [subst; left; split; reflexivity|right].
  destruct (N.eqb_spec c 34); [subst; left; split; reflexivity|right].
  destruct (N.eqb_spec c 39); [subst; left; split; reflexivity|right].
  destruct (N.eqb_spec c 47); [subst; left; split; reflexivity|right].
  split; reflexivity.
Qed.

Lemma isSpecial_false (c : N) :
  isSpecial c = false ->
  c <> 38%N /\ c <> 60%N /\ c <> 62%N /\ c <> 34%N /\ c <> 39%N /\ c <> 47%N.
Proof.
  unfold isSpecial. intros H.
  repeat (apply orb_false_iff in H; destruct H as (H & ?)).
  repeat split; apply N.eqb_neq; assumption.
Qed.

Ltac escape_cases c H :=
  destruct (escapeUnit_cases c)
    as [(? & H)|[(? & H)|[(? & H)|[(? & H)|[(? & H)|[(? & H)|(? & H)]]]]]].

(** X15: What is written never contains a less-than sign, a greater-than sign, a
    double quote, a single quote or a slash, whatever the text. *)
Theorem textToSvgText_safe (text : Text) :
  Forall (fun c : N =>
            c <> 60%N /\ c <> 62%N /\ c <> 34%N /\ c <> 39%N /\ c <> 47%N)
         (textToSvgText text).
Proof.
  unfold textToSvgText. induction text as [|c r IH]; [constructor|].
  cbn [flat_map]. apply Forall_app. split; [|exact IH].
  escape_cases c E; rewrite E;
    try (repeat constructor; discriminate).
  apply isSpecial_false in H. constructor; [|constructor].
  repeat split; apply H.
Qed.

Lemma escapeUnit_prefix_free (c c' : N) (r r' : Text) :
  escapeUnit c ++ r = escapeUnit c' ++ r' -> c = c' /\ r = r'.
Proof.
  intros H.
  escape_cases c E; escape_cases c' E'; rewrite E, E' in H;
    repeat match goal with
           | S : isSpecial _ = false |- _ => apply isSpecial_false in S
           end;
    cbn [app] in H; try discriminate H;
    try (injection H; intros; subst; split; [congruence | reflexivity]);
    try (injection H; intros; subst; exfalso; intuition congruence).
Qed.

Lemma textToSvgText_injective_aux (t1 : Text) : forall t2 : Text,
  textToSvgText t1 = textToSvgText t2 -> t1 = t2.
Proof.
  unfold textToSvgText.
  induction t1 as [|c r IH]; intros t2 H.
  - destruct t2 as [|c' r']; [reflexivity|]. exfalso.
    cbn [flat_map] in H. escape_cases c' E; rewrite E in H; discriminate H.
  - destruct t2 as [|c' r'].
    + exfalso. cbn [flat_map] in H.
      escape_cases c E; rewrite E in H; discriminate H.
    + cbn [flat_map] in H. apply escapeUnit_prefix_free in H.
      destruct H as (-> & H). f_equal. apply IH. exact H.
Qed.

(** X16: Escaping loses nothing: two texts with the same escaped form are the
    same text. *)
Theorem textToSvgText_injective (t1 t2 : Text) :
  textToSvgText t1 = textToSvgText t2 -> t1 = t2.
Proof. apply textToSvgText_injective_aux. Qed.

Lemma textToSvgText_injective_witness :
  [97; 60; 98]%N = [97; 60; 98]%N.
Proof.
  apply textToSvgText_injective. reflexivity.
Defined.

Lemma escapeUnit_length (c : N) :
  (if isSpecial c then 4 <= length (escapeUnit c) <= 6
   else length (escapeUnit c) = 1)%nat.
Proof.
  escape_cases c E; rewrite E; subst; simpl; try lia.
  rewrite H. reflexivity.
Qed.

Lemma filter_none (A : Type) (p : A -> bool) (l : list A) :
  length (filter p l) = 0%nat <-> forallb (fun x => negb (p x)) l = true.
Proof.
  induction l as [|x r IH]; simpl; [tauto|].
  destruct (p x); simpl; [split; [lia|discriminate] | exact IH].
Qed.

Lemma plain_unchanged (text : Text) :
  forallb (fun c => negb (isSpecial c)) text = true ->
  textToSvgText text = text.
Proof.
  unfold textToSvgText. induction text as [|c r IH]; [reflexivity|].
  simpl forallb. intros H. apply andb_true_iff in H as (Hc & Hr).
  cbn [flat_map]. rewrite (IH Hr).
  apply negb_true_iff in Hc.
  escape_cases c E; rewrite E; subst; try discriminate Hc. reflexivity.
Qed.

(** X17: Escaping never shortens a text, and lengthens it by at least 3 and at
    most 5 code units for each special character; it distributes over
    concatenation; and it leaves a text unchanged exactly when the text has
    none of the six special characters.  So escaping twice differs from
    escaping once as soon as there is something to escape. *)
Theorem textToSvgText_fixed_points :
  (forall text : Text,
     (length text + 3 * length (filter isSpecial text)
      <= length (textToSvgText text)
      <= length text + 5 * length (filter isSpecial text))%nat)
  /\ (forall t1 t2 : Text,
        textToSvgText (t1 ++ t2) = textToSvgText t1 ++ textToSvgText t2)
  /\ (forall text : Text,
        textToSvgText text = text
        <-> forallb (fun c => negb (isSpecial c)) text = true)
  /\ (forall text : Text,
        textToSvgText (textToSvgText text) = textToSvgText text
        <-> forallb (fun c => negb (isSpecial c)) text = true).
Proof.
  assert (L : forall text : Text,
             (length text + 3 * length (filter isSpecial text)
              <= length (textToSvgText text)
              <= length text + 5 * length (filter isSpecial text))%nat).
  { intros text. unfold textToSvgText.
    induction text as [|c r IH]; [simpl; lia|].
    cbn [flat_map filter]. rewrite length_app.
    pose proof (escapeUnit_length c) as Lc.
    destruct (isSpecial c); simpl length; lia. }
  assert (F : forall text : Text,
             textToSvgText text = text
             <-> forallb (fun c => negb (isSpecial c)) text = true).
  { intros text. split; [|apply plain_unchanged].
    intros E. apply filter_none.
    pose proof (L text) as B. rewrite E in B. lia. }
  split; [exact L|]. split; [|split].
  - intros t1 t2. apply flat_map_app.
  - exact F.
  - intros text. split.
    + intros E. apply F. apply textToSvgText_injective_aux. exact E.
    + intros P. rewrite !(proj2 (F text) P). reflexivity.
Qed.

(** ** Text truncation *)

Section Truncation.

Variable isBrowser : bool.
Variable measureText : Text -> Text -> Q.
Variables (maxWidth : Q) (font : Text).

Let width (text : Text) : Q := textToSvgLength isBrowser measureText text font.
Let loop : Text -> Text := truncateLoop isBrowser measureText maxWidth font.

Lemma truncateLoop_step_gen (c : N) (r : Text) (g : bool) :
  g = Qltb maxWidth (width ((c :: r) ++ [ellipsis])) ->
  loop (c :: r) = if g then loop (removelast (c :: r)) else c :: r.
Proof.
  intros Hg. unfold loop. rewrite truncateLoop_equation_2.
  unfold truncateLoop_unfold_clause_2.
  destruct (inspect
              (Qltb maxWidth
                 (textToSvgLength isBrowser measureText
                    ((c :: r) ++ [ellipsis]) font))) as [[|] H];
    unfold width in Hg; rewrite H in Hg; subst g; reflexivity.
Qed.

Lemma truncateLoop_step (c : N) (r : Text) :
  loop (c :: r)
  = if Qltb maxWidth (width ((c :: r) ++ [ellipsis]))
    then loop (removelast (c :: r)) else c :: r.
Proof. apply truncateLoop_step_gen. reflexivity. Qed.

(** The loop stops at the longest prefix that is not too wide with the
    ellipsis, or at the empty text. *)
Lemma truncateLoop_longest (n : nat) : forall text : Text,
  length text = n ->
  exists k : nat,
    (k <= n)%nat
    /\ loop text = firstn k text
    /\ (k = 0%nat \/ width (firstn k text ++ [ellipsis]) <= maxWidth)
    /\ (forall j : nat,
          (k < j <= n)%nat ->
          maxWidth < width (firstn j text ++ [ellipsis])).
Proof.
  induction n as [|m IH]; intros text Hl.
  - destruct text; [|discriminate]. exists 0%nat.
    split; [lia|]. split; [reflexivity|]. split; [left; reflexivity|].
    intros j Hj. lia.
  - destruct text as [|c r]; [discriminate|].
    rewrite truncateLoop_step.
    destruct (Qltb maxWidth (width ((c :: r) ++ [ellipsis]))) eqn:W.
    + assert (R : removelast (c :: r) = firstn m (c :: r)).
      { rewrite removelast_firstn_len, Hl. reflexivity. }
      assert (Lr : length (firstn m (c :: r)) = m).
      { rewrite length_firstn, Hl. lia. }
      rewrite R. destruct (IH _ Lr) as (k & Hk & E & F & G).
      assert (P : forall j : nat,
                 (j <= m)%nat ->
                 firstn j (firstn m (c :: r)) = firstn j (c :: r)).
      { intros j Hj. rewrite firstn_firstn. f_equal. lia. }
      exists k. split; [lia|]. rewrite E, (P k Hk) in *.
      split; [reflexivity|]. split; [exact F|].
      intros j Hj. destruct (Nat.eq_dec j (S m)) as [->|Nj].
      * rewrite <- Hl, firstn_all. apply Qltb_lt. exact W.
      * rewrite <- (P j) by lia. apply G. lia.
    + exists (S m). split; [lia|]. rewrite <- Hl, firstn_all.
      split; [reflexivity|]. split.
      * right. apply Qltb_ge. exact W.
      * intros j Hj. lia.
Qed.

End Truncation.

(** X18: A text that is not empty and wider than [maxWidth] is cut to a prefix
    followed by the ellipsis: the longest prefix that fits [maxWidth]
    together with the ellipsis, or the empty prefix when none does. *)
Theorem truncateTextWithEllipsis_cut (isBrowser : bool)
    (measureText : Text -> Text -> Q) (maxWidth : Q) (font text : Text) :
  text <> [] ->
  maxWidth < textToSvgLength isBrowser measureText text font ->
  exists k : nat,
    (k <= length text)%nat
    /\ truncateTextWithEllipsis isBrowser measureText maxWidth font text
       = firstn k text ++ [ellipsis]
    /\ (k = 0%nat
        \/ textToSvgLength isBrowser measureText
             (firstn k text ++ [ellipsis]) font <= maxWidth)
    /\ (forall j : nat,
          (k < j <= length text)%nat ->
          maxWidth < textToSvgLength isBrowser measureText
                       (firstn j text ++ [ellipsis]) font).
Proof.
  intros Hne Hw.
  destruct (@truncateLoop_longest isBrowser measureText maxWidth font
              _ text eq_refl) as (k & Hk & E & F & G).
  exists k. split; [exact Hk|]. split; [|split; assumption].
  unfold truncateTextWithEllipsis. destruct text as [|c r]; [congruence|].
  apply Qle_bool_gt in Hw. rewrite Hw, E. reflexivity.
Qed.

Lemma truncateTextWithEllipsis_cut_witness :
  exists k : nat,
    (k <= 8)%nat
    /\ truncateTextWithEllipsis true
         (fun _ t => inject_Z (Z.of_nat (length t))) 5 []
         [97; 98; 99; 100; 101; 102; 103; 104]%N
       = firstn k [97; 98; 99; 100; 101; 102; 103; 104]%N ++ [ellipsis].
Proof.
  destruct (@truncateTextWithEllipsis_cut true
              (fun _ t => inject_Z (Z.of_nat (length t))) 5 []
              [97; 98; 99; 100; 101; 102; 103; 104]%N)
    as (k & Hk & E & _).
  - discriminate.
  - reflexivity.
  - exists k. split; [exact Hk | exact E].
Defined.

Lemma truncate_fits_or_bare (isBrowser : bool)
    (measureText : Text -> Text -> Q) (maxWidth : Q) (font text : Text) :
  text <> [] ->
  textToSvgLength isBrowser measureText
    (truncateTextWithEllipsis isBrowser measureText maxWidth font text) font
  <= maxWidth
  \/ truncateTextWithEllipsis isBrowser measureText maxWidth font text
     = [ellipsis].
Proof.
  intros Hne.
  destruct (Qlt_le_dec maxWidth
              (textToSvgLength isBrowser measureText text font)) as [W|F].
  - destruct (@truncateLoop_longest isBrowser measureText maxWidth font
                _ text eq_refl) as (k & Hk & E & C & _).
    assert (R : truncateTextWithEllipsis isBrowser measureText maxWidth font
                  text = firstn k text ++ [ellipsis]).
    { unfold truncateTextWithEllipsis. destruct text as [|c r]; [congruence|].
      apply Qle_bool_gt in W. rewrite W, E. reflexivity. }
    rewrite R. destruct C as [->|C]; [right; reflexivity | left; exact C].
  - left. unfold truncateTextWithEllipsis.
    destruct text as [|c r]; [congruence|].
    apply Qle_bool_iff in F. rewrite F.
    apply Qle_bool_iff. exact F.
Qed.

(** X19: What is returned for a non-empty text fits [maxWidth], unless it is the
    bare ellipsis. *)
Theorem truncateTextWithEllipsis_fits (isBrowser : bool)
    (measureText : Text -> Text -> Q) (maxWidth : Q) (font text : Text) :
  text <> [] ->
  textToSvgLength isBrowser measureText
    (truncateTextWithEllipsis isBrowser measureText maxWidth font text) font
  <= maxWidth
  \/ truncateTextWithEllipsis isBrowser measureText maxWidth font text
     = [ellipsis].
Proof. apply truncate_fits_or_bare. Qed.

Lemma truncateTextWithEllipsis_fits_witness :
  textToSvgLength true (fun _ t => inject_Z (Z.of_nat (length t)))
    (truncateTextWithEllipsis true
       (fun _ t => inject_Z (Z.of_nat (length t))) 5 []
       [97; 98; 99; 100; 101; 102; 103; 104]%N) []
  <= 5
  \/ truncateTextWithEllipsis true
       (fun _ t => inject_Z (Z.of_nat (length t))) 5 []
       [97; 98; 99; 100; 101; 102; 103; 104]%N
     = [ellipsis].
Proof.
  apply truncateTextWithEllipsis_fits. discriminate.
Defined.

(** X20: Outside a browser every text measures 0: nothing is truncated when
    [maxWidth] is not negative, and with a negative [maxWidth] every
    non-empty text becomes the bare ellipsis. *)
Theorem truncateTextWithEllipsis_no_browser
    (measureText : Text -> Text -> Q) (maxWidth : Q) (font text : Text) :
  truncateTextWithEllipsis false measureText maxWidth font text
  = if Qle_bool 0 maxWidth then text
    else match text with
         | [] => []
         | _ :: _ => [ellipsis]
         end.
Proof.
  unfold truncateTextWithEllipsis. destruct text as [|c r].
  - destruct (Qle_bool 0 maxWidth); reflexivity.
  - cbn [textToSvgLength]. destruct (Qle_bool 0 maxWidth) eqn:W;
      [reflexivity|].
    destruct (@truncateLoop_longest false measureText maxWidth font
                _ (c :: r) eq_refl) as (k & Hk & E & C & _).
    rewrite E. apply Qle_bool_gt in W.
    destruct C as [->|C]; [reflexivity|].
    cbn [textToSvgLength] in C. lra.
Qed.

(** ** Header layout of a block *)

Section TitleLayout.

Variables (width titleHeight iconWidth opsIconSpacing : Q).
Variable titleSeparateLine : bool.
Variable isBrowser : bool.
Variable measureText : Text -> Text -> Q.
Variable fontSpec : Text.
Variable statCount : nat.

Let available : bool -> Q :=
  textWidth width titleHeight iconWidth opsIconSpacing statCount.
Let measured (text : Text) : Q :=
  textToSvgLength isBrowser measureText text fontSpec.
Let separate : Text -> bool :=
  useSeparateLine width titleHeight iconWidth opsIconSpacing
    titleSeparateLine isBrowser measureText fontSpec statCount.
Let fitted (titleEllipsis : bool) : Text -> Text :=
  fittedTitle width titleHeight iconWidth opsIconSpacing titleSeparateLine
    titleEllipsis isBrowser measureText fontSpec statCount.
Let shown (titleEllipsis hasBadActions : bool) : Text -> Text :=
  shownTitle width titleHeight iconWidth opsIconSpacing titleSeparateLine
    titleEllipsis isBrowser measureText fontSpec statCount hasBadActions.

Lemma statText_antitone (i : nat) :
  0 <= titleHeight ->
  statText width titleHeight i <= statText width titleHeight 0.
Proof.
  intros H. unfold statText. apply roundQ_mono.
  assert (N : 0 <= inject_Z (Z.of_nat i)).
  { change 0 with (inject_Z 0). rewrite <- Zle_Qle. lia. }
  assert (T : 0 <= titleHeight / 20) by (apply Qle_shift_div_l; lra).
  change (inject_Z (Z.of_nat 0)) with 0. nra.
Qed.

(** X21: The header of a block, for a non-negative [titleHeight].  A line of its
    own never leaves the title less room than the line shared with the
    statistics.  With [titleEllipsis] set and no action of a position that
    is not finite, a non-empty title is written so that it fits the room of
    the line it is on, or as the bare ellipsis.  With an action of a
    position that is not finite, the title written is that title followed
    by [::bad], appended after the truncation.  And when a line of its own
    is allowed, the title is truncated only if it does not fit that line
    either. *)
Theorem title_layout (titleText : Text) :
  0 <= titleHeight ->
  available false <= available true
  /\ (titleText <> [] ->
      measured (shown true false titleText) <= available (separate titleText)
      \/ shown true false titleText = [ellipsis])
  /\ (forall titleEllipsis : bool,
        shown titleEllipsis true titleText
        = shown titleEllipsis false titleText ++ badSuffix)
  /\ (forall titleEllipsis : bool,
        titleSeparateLine = true ->
        fitted titleEllipsis titleText <> titleText ->
        separate titleText = true
        /\ available true < measured titleText).
Proof.
  intros H. split; [|split; [|split]].
  - unfold available, textWidth. apply Qplus_le_l. apply statText_antitone.
    exact H.
  - intros Hne.
    unfold shown, shownTitle, fittedTitle, measured, available, separate.
    destruct titleText as [|c r]; [congruence|]. cbn [nonEmpty andb].
    match goal with
    | |- context [if ?b then _ else _] => destruct b eqn:W
    end.
    + apply truncate_fits_or_bare. discriminate.
    + left. apply Qltb_ge. exact W.
  - intros titleEllipsis. reflexivity.
  - intros titleEllipsis Hs Hcut.
    unfold fitted, fittedTitle, measured, available, separate in *.
    match type of Hcut with
    | context [if ?b then _ else _] => destruct b eqn:C
    end; [|congruence].
    apply andb_true_iff in C as (C & W).
    apply andb_true_iff in C as (Ne & _).
    match type of W with
    | context [useSeparateLine ?a ?b ?c ?d ?e ?f ?g ?h ?i ?t] =>
        destruct (useSeparateLine a b c d e f g h i t) eqn:S
    end.
    + split; [reflexivity|]. apply Qltb_lt. exact W.
    + exfalso. unfold useSeparateLine in S.
      rewrite Ne, Hs, W in S. discriminate.
Qed.

End TitleLayout.

Lemma title_layout_witness :
  textWidth 690 20 46 0 3 false <= textWidth 690 20 46 0 3 true.
Proof.
  destruct (@title_layout 690 20 46 0 true true
              (fun _ t => inject_Z (Z.of_nat (length t)) * 8) [] 3
              [97; 98; 99]%N) as (H & _).
  - unfold Qle. simpl. lia.
  - exact H.
Defined.

Lemma Qfloor_half (n : Z) : Qfloor (inject_Z n + (1 # 2)) = n.
Proof.
  unfold Qfloor, Qplus, inject_Z. cbn [Qnum Qden].
  change (Z.pos (1 * 2)) with 2%Z.
  symmetry. apply (Z.div_unique_pos _ 2 n 1); lia.
Qed.

Lemma toFixed2_hundredths (n : Z) :
  toFixed2 (inject_Z n / 100) == inject_Z n / 100.
Proof.
  unfold toFixed2. rewrite Qred_correct.
  assert (E : inject_Z n / 100 * 100 + (1 # 2) == inject_Z n + (1 # 2))
    by field.
  rewrite E, Qfloor_half. reflexivity.
Qed.

Lemma toFixed2_comp (x y : Q) : x == y -> toFixed2 x = toFixed2 y.
Proof.
  intros E. unfold toFixed2. apply Qred_complete. rewrite E. reflexivity.
Qed.

(** Rounding to two decimals leaves a whole number of hundredths as it
    is. *)
Lemma roundQ_hundredths (x : Q) (n : Z) :
  x == inject_Z n / 100 -> roundQ x == x.
Proof.
  intros E. rewrite (roundQ_comp E), E. unfold roundQ.
  destruct (Qltb (inject_Z n / 100) 0).
  - rewrite Qred_correct.
    assert (N : - (inject_Z n / 100) == inject_Z (- n) / 100).
    { rewrite inject_Z_opp. field. }
    rewrite (toFixed2_comp N), toFixed2_hundredths, inject_Z_opp.
    field.
  - apply toFixed2_hundredths.
Qed.

(** Rounding to two decimals leaves a whole number as it is. *)
Lemma roundQ_whole (x : Q) (n : Z) : x == inject_Z n -> roundQ x == x.
Proof.
  intros E. apply roundQ_hundredths with (n := (n * 100)%Z).
  rewrite E, inject_Z_mult. change (inject_Z 100) with 100. field.
Qed.

(** X24: The graph area ends where the block ends, with the title on one line or
    on two, when [height], [titleHeight] and [titleSpacing] are whole
    numbers (so that no sum, difference or rounding loses anything):
    [yy.graphTop + graphHeight] is [yy.svgBottom]. *)
Theorem graph_reaches_block_bottom (height titleHeight titleSpacing : Q)
    (a b c : Z) (separate : bool) :
  height == inject_Z a ->
  titleHeight == inject_Z b ->
  titleSpacing == inject_Z c ->
  graphTop titleHeight titleSpacing separate
  + graphHeight height titleHeight titleSpacing
  == svgBottom height titleHeight separate.
Proof.
  intros Ha Hb Hc.
  assert (Ex : exists e : Z,
             titleExtra titleHeight separate == inject_Z e).
  { destruct separate; [exists b; exact Hb | exists 0%Z; reflexivity]. }
  destruct Ex as (e & He).
  unfold graphTop, titleBottom, svgBottom, graphHeight.
  assert (T : roundQ (titleHeight + titleExtra titleHeight separate)
              == titleHeight + titleExtra titleHeight separate).
  { apply roundQ_whole with (n := (b + e)%Z).
    rewrite He, Hb, inject_Z_plus. reflexivity. }
  assert (G : roundQ (roundQ (titleHeight + titleExtra titleHeight separate)
                      + titleSpacing)
              == titleHeight + titleExtra titleHeight separate
                 + titleSpacing).
  { rewrite (roundQ_whole (n := (b + e + c)%Z)).
    - rewrite T. reflexivity.
    - rewrite T, He, Hb, Hc, !inject_Z_plus. reflexivity. }
  assert (B : roundQ (height + titleExtra titleHeight separate)
              == height + titleExtra titleHeight separate).
  { apply roundQ_whole with (n := (a + e)%Z).
    rewrite He, Ha, inject_Z_plus. reflexivity. }
  rewrite G, B. ring.
Qed.

Lemma graph_reaches_block_bottom_witness :
  graphTop 20 0 true + graphHeight 52 20 0 == svgBottom 52 20 true.
Proof.
  apply (@graph_reaches_block_bottom 52 20 0 52 20 0 true);
    reflexivity.
Defined.

(** ** Stacking of the blocks *)

Lemma stacked_weaken_hi (h th : Q) (l : list Piece) :
  forall y hi hi' : Q,
  hi <= hi' -> stacked h th y l hi -> stacked h th y l hi'.
Proof.
  induction l as [|p r IH]; intros y hi hi' H S; simpl in *.
  - lra.
  - destruct S as (S1 & S2). split; [exact S1|]. eapply IH; eassumption.
Qed.

Lemma stacked_weaken_lo (h th : Q) (l : list Piece) (y y' hi : Q) :
  y' <= y -> stacked h th y l hi -> stacked h th y' l hi.
Proof.
  destruct l as [|p r]; simpl; intros H S.
  - lra.
  - destruct S as (S1 & S2). split; [lra | exact S2].
Qed.

Lemma stacked_app (h th : Q) (l1 : list Piece) :
  forall (l2 : list Piece) (y mid hi : Q),
  stacked h th y l1 mid -> stacked h th mid l2 hi ->
  stacked h th y (l1 ++ l2) hi.
Proof.
  induction l1 as [|p r IH]; intros l2 y mid hi S1 S2; simpl in *.
  - eapply stacked_weaken_lo; eassumption.
  - destruct S1 as (A & B). split; [exact A|]. eapply IH; eassumption.
Qed.

Lemma totalExtent_app (h th : Q) (l1 l2 : list Piece) :
  totalExtent h th (l1 ++ l2)
  == totalExtent h th l1 + totalExtent h th l2.
Proof.
  induction l1 as [|p r IH]; simpl; [ring|]. rewrite IH. ring.
Qed.

Section StackingProperties.

Variable Script : Type.
Variable filePath : Script -> Text.
Variable listChannels : Script -> list Script.
Variable normalized : Script -> Script.
Variable statCountOf : bool -> Script -> nat.
Variable chapterCount : Script -> nat.
Variables (width height titleHeight iconWidth opsIconSpacing : Q).
Variables (titleSeparateLine normalize showChapters : bool).
Variable chapterHeight : Q.
Variable title : TitleOption Script.
Variable isBrowser : bool.
Variable measureText : Text -> Text -> Q.
Variable fontSpec : Text.

Let axesFrom : list Script -> Q -> list Piece * Q :=
  placeAxes filePath statCountOf width height titleHeight iconWidth
    opsIconSpacing titleSeparateLine title isBrowser measureText fontSpec.
Let scriptsFrom : list Script -> Q -> list Piece * Q :=
  placeScripts filePath listChannels normalized statCountOf width height
    titleHeight iconWidth opsIconSpacing titleSeparateLine normalize title
    isBrowser measureText fontSpec.
Let offset : list Script -> Q :=
  chapterOffset chapterCount showChapters chapterHeight.
Let layout : list Script -> list Piece * Q :=
  toSvgElementLayout filePath listChannels normalized statCountOf
    chapterCount width height titleHeight iconWidth opsIconSpacing
    titleSeparateLine normalize showChapters chapterHeight title isBrowser
    measureText fontSpec.

Lemma placeAxes_stacked (axes : list Script) :
  forall (y : Q) (pieces : list Piece) (y' : Q),
  axesFrom axes y = (pieces, y') ->
  stacked height titleHeight y pieces y'
  /\ y' == y + totalExtent height titleHeight pieces.
Proof.
  unfold axesFrom.
  induction axes as [|a rest IH]; intros y pieces y' E.
  - injection E as <- <-. simpl. split; [apply Qle_refl | ring].
  - cbn [placeAxes placeBlock] in E.
    match type of E with
    | context [placeAxes _ _ _ _ _ _ _ _ _ _ _ _ rest ?y1] =>
        destruct (placeAxes filePath statCountOf width height titleHeight
                    iconWidth opsIconSpacing titleSeparateLine title
                    isBrowser measureText fontSpec rest y1)
          as [ps y2] eqn:R
    end.
    injection E as <- <-.
    destruct (IH _ _ _ R) as (S & T).
    cbn [stacked totalExtent pieceY pieceSeparate].
    split.
    + split; [apply Qle_refl|].
      eapply stacked_weaken_lo; [|exact S].
      unfold titleExtra. destruct (doublesTitle _ _ _ _ _ _ _ _ _ _ _ _ _);
        lra.
    + rewrite T. unfold titleExtra.
      destruct (doublesTitle _ _ _ _ _ _ _ _ _ _ _ _ _); ring.
Qed.

Lemma placeScripts_stacked (scripts : list Script) :
  forall (y : Q) (pieces : list Piece) (y' : Q),
  scriptsFrom scripts y = (pieces, y') ->
  stacked height titleHeight y pieces y'
  /\ y' == y + totalExtent height titleHeight pieces
           + 4 * inject_Z (Z.of_nat (length scripts))
  /\ (scripts <> [] -> stacked height titleHeight y pieces (y' - 4)).
Proof.
  unfold scriptsFrom.
  induction scripts as [|s0 rest IH]; intros y pieces y' E.
  - injection E as <- <-. simpl. split; [apply Qle_refl|].
    split; [ring | congruence].
  - cbn [placeScripts placeBlock] in E.
    set (s := if normalize then normalized s0 else s0) in E.
    match type of E with
    | context [placeAxes _ _ _ _ _ _ _ _ _ _ _ _ (listChannels s) ?y1] =>
        destruct (placeAxes filePath statCountOf width height titleHeight
                    iconWidth opsIconSpacing titleSeparateLine title
                    isBrowser measureText fontSpec (listChannels s) y1)
          as [axes y2] eqn:A
    end.
    match type of E with
    | context [placeScripts _ _ _ _ _ _ _ _ _ _ _ _ _ _ _ rest ?y3] =>
        destruct (placeScripts filePath listChannels normalized statCountOf
                    width height titleHeight iconWidth opsIconSpacing
                    titleSeparateLine normalize title isBrowser measureText
                    fontSpec rest y3)
          as [ps y4] eqn:R
    end.
    injection E as <- <-.
    destruct (placeAxes_stacked _ _ A) as (SA & TA).
    destruct (IH _ _ _ R) as (SR & TR & NR).
    set (sep := doublesTitle filePath statCountOf width titleHeight iconWidth
                  opsIconSpacing titleSeparateLine title isBrowser
                  measureText fontSpec false s) in *.
    assert (Y1 : (if sep then y + titleHeight else y) + (height + 0)
                 == y + (height + titleExtra titleHeight sep)).
    { unfold titleExtra. destruct sep; ring. }
    assert (C : stacked height titleHeight
                  (y + (height + titleExtra titleHeight sep)) axes y2).
    { eapply stacked_weaken_lo; [|exact SA]. rewrite Y1. apply Qle_refl. }
    assert (Tot : y4 == y + totalExtent height titleHeight
                             (mkPiece y sep :: axes ++ ps)
                       + 4 * inject_Z (Z.of_nat (length (s0 :: rest)))).
    { rewrite TR, TA, Y1. cbn [totalExtent pieceSeparate length].
      rewrite totalExtent_app, Nat2Z.inj_succ. unfold Z.succ.
      rewrite inject_Z_plus. change (inject_Z 1) with 1. ring. }
    cbn [stacked pieceY pieceSeparate].
    split; [|split; [exact Tot|]].
    + split; [apply Qle_refl|].
      apply stacked_app with (mid := y2); [exact C|].
      eapply stacked_weaken_lo; [|exact SR]. lra.
    + intros _. split; [apply Qle_refl|].
      destruct rest as [|s1 rest'].
      * cbn [placeScripts] in R. injection R as <- <-.
        rewrite app_nil_r.
        eapply stacked_weaken_hi; [|exact C]. lra.
      * apply stacked_app with (mid := y2); [exact C|].
        eapply stacked_weaken_lo; [|apply NR; discriminate]. lra.
Qed.

Lemma totalExtent_whole (a b : Z) (pieces : list Piece) :
  height == inject_Z a -> titleHeight == inject_Z b ->
  exists n : Z, totalExtent height titleHeight pieces == inject_Z n.
Proof.
  intros Ha Hb. induction pieces as [|p r (n & IH)].
  - exists 0%Z. reflexivity.
  - cbn [totalExtent]. unfold titleExtra. destruct (pieceSeparate p).
    + exists (a + b + n)%Z. rewrite IH, Ha, Hb, !inject_Z_plus. reflexivity.
    + exists (a + n)%Z. rewrite IH, Ha, inject_Z_plus. ring.
Qed.

Lemma chapterOffset_whole (c : Z) (scripts : list Script) :
  chapterHeight == inject_Z c ->
  exists n : Z, offset scripts == inject_Z n.
Proof.
  intros Hc. unfold offset, chapterOffset. destruct scripts as [|s r].
  - exists 0%Z. reflexivity.
  - destruct (showChapters && negb (Nat.eqb (chapterCount s) 0)).
    + exists c. exact Hc.
    + exists 0%Z. reflexivity.
Qed.

(** X22: For whole numbers [height], [titleHeight] and [chapterHeight] (so that
    no sum loses anything), the blocks of a non-empty list of scripts are
    stacked without overlap from the chapter offset down: each block starts
    no higher than where the one before ends, counting [titleHeight] more
    for a title on two lines, and the [height] attribute is the ordinate of
    the end of the last block or below it.  That ordinate is a whole
    number, the chapter offset plus the heights of all blocks plus 4
    between consecutive scripts.  For no script at all the [height]
    attribute is -4.  With no [title] option an axis never gets a title
    line of its own. *)
Theorem toSvgElement_stacked (a b c : Z) (scripts : list Script) :
  height == inject_Z a ->
  titleHeight == inject_Z b ->
  chapterHeight == inject_Z c ->
  scripts <> [] ->
  (exists (pieces : list Piece) (y : Q),
     layout scripts = (pieces, roundQ y)
     /\ roundQ y == y
     /\ stacked height titleHeight (0 + offset scripts) pieces y
     /\ y == offset scripts + totalExtent height titleHeight pieces
             + 4 * (inject_Z (Z.of_nat (length scripts)) - 1))
  /\ layout [] = ([], -4)
  /\ (title = TitleNull ->
      forall s : Script,
        doublesTitle filePath statCountOf width titleHeight iconWidth
          opsIconSpacing titleSeparateLine title isBrowser measureText
          fontSpec true s = false).
Proof.
  intros Ha Hb Hc Hne. split; [|split].
  - unfold layout, toSvgElementLayout. fold offset. fold scriptsFrom.
    destruct (scriptsFrom scripts (0 + offset scripts)) as [pieces y'] eqn:E.
    destruct (placeScripts_stacked _ _ E) as (_ & T & S).
    assert (Y : y' - 4 + 0
                == offset scripts + totalExtent height titleHeight pieces
                   + 4 * (inject_Z (Z.of_nat (length scripts)) - 1))
      by (rewrite T; ring).
    exists pieces, (y' - 4 + 0). split; [reflexivity|].
    split; [|split; [|exact Y]].
    + destruct (totalExtent_whole pieces Ha Hb) as (n & Hn).
      destruct (chapterOffset_whole scripts Hc) as (m & Hm).
      apply roundQ_whole
        with (n := (m + n + 4 * (Z.of_nat (length scripts) - 1))%Z).
      rewrite Y, Hn, Hm, !inject_Z_plus, inject_Z_mult.
      unfold Z.sub. rewrite inject_Z_plus. reflexivity.
    + eapply stacked_weaken_hi; [|apply S; exact Hne]. lra.
  - reflexivity.
  - intros -> s. reflexivity.
Qed.

End StackingProperties.

Lemma toSvgElement_stacked_witness :
  toSvgElementLayout (fun _ : nat => [97; 98; 99]%N)
    (fun n : nat => repeat 0%nat n) (fun s => s) (fun _ _ => 3%nat)
    (fun _ => 0%nat) 690 52 20 46 0 true true false 10 TitleNull false
    (fun _ _ => 0) [] []
  = ([], -4).
Proof.
  destruct (@toSvgElement_stacked nat (fun _ : nat => [97; 98; 99]%N)
              (fun n : nat => repeat 0%nat n) (fun s => s)
              (fun _ _ => 3%nat) (fun _ => 0%nat) 690 52 20 46 0 true true
              false 10 TitleNull false (fun _ _ => 0) [] 52%Z 20%Z 10%Z
              [2%nat; 0%nat])
    as (_ & H & _).
  - reflexivity.
  - reflexivity.
  - reflexivity.
  - discriminate.
  - exact H.
Defined.

(** ** Chapter bar *)






(** ** Icon background *)

(** The clamp of [iconOpacity] on any speed but [NaN]: a finite number
    between one half and 1. *)
Lemma icon_clamp (avgSpeed : num) :
  isNaN avgSpeed = false ->
  exists f : Q,
    num_max (Fin (1 # 2)) (num_min (Fin 1) (num_div avgSpeed (Fin 100)))
    = Fin f
    /\ 1 # 2 <= f /\ f <= 1.
Proof.
  destruct avgSpeed as [v| | |]; intros H; try discriminate H.
  - change (num_div (Fin v) (Fin 100)) with (Fin (v / 100)).
    unfold num_min, num_leb.
    destruct (Qle_bool 1 (v / 100)) eqn:A.
    + exists 1. split; [reflexivity|]. split; [discriminate | apply Qle_refl].
    + apply Qle_bool_gt in A. unfold num_max, num_leb.
      destruct (Qle_bool (1 # 2) (v / 100)) eqn:B.
      * apply Qle_bool_iff in B. exists (v / 100).
        split; [reflexivity|]. split; lra.
      * exists (1 # 2). split; [reflexivity|].
        split; [apply Qle_refl | discriminate].
  - exists 1. split; [reflexivity|]. split; [discriminate | apply Qle_refl].
  - exists (1 # 2). split; [reflexivity|].
    split; [apply Qle_refl | discriminate].
Qed.

(** X25: The background of the icon is never fainter than half the title
    opacity nor stronger than the title opacity (both rounded), for a
    non-negative [titleOpacity] and any average speed but [NaN]; for the
    average speed [NaN] the opacity written is [NaN]. *)
Theorem iconOpacity_range (titleOpacity : Q) (avgSpeed : num) :
  0 <= titleOpacity ->
  (isNaN avgSpeed = false ->
   exists o : Q,
     iconOpacity titleOpacity avgSpeed = Fin o
     /\ roundQ (titleOpacity * (1 # 2)) <= o /\ o <= roundQ titleOpacity)
  /\ iconOpacity titleOpacity NaN = NaN.
Proof.
  intros H. split; [|reflexivity].
  intros N. destruct (icon_clamp avgSpeed N) as (f & E & F0 & F1).
  unfold iconOpacity. rewrite E. cbn [num_mul round].
  eexists. split; [reflexivity|]. split; apply roundQ_mono; nra.
Qed.

Lemma iconOpacity_range_witness :
  exists o : Q,
    iconOpacity (7 # 10) (Fin 250) = Fin o
    /\ roundQ ((7 # 10) * (1 # 2)) <= o /\ o <= roundQ (7 # 10).
Proof.
  destruct (@iconOpacity_range (7 # 10) (Fin 250)) as (H & _).
  - unfold Qle. simpl. lia.
  - apply H. reflexivity.
Defined.
